(** * colony: message routing on top of a pub/sub broker

    A shallow embedding of [services.go] (package [colony]): topic naming,
    the message envelope, the per-service actor loop [start] that owns the
    handler map, and the public operations [Emit], [Request], [Announce] and
    [Consume] together with the response router [HandleMessage].

    Conventions.
    - Go [string] is [string] (a sequence of bytes), [[]byte] is
      [list Byte.byte], Go [int] is a 64-bit two's complement integer kept
      in [Z] with its wrap-around written out ([wrap_int]).
    - [map[messageID]chan Message] is a [gmap]; a channel made by
      [make(chan Message)] is named by a natural number.
    - [log.Fatal] ends the process: it is the outcome [Fatal].
    - A send on an unbuffered channel happens when its receiver takes it
      and blocks the sender until then ([send], [Receivers]); inside the
      loop of [start] the blocked send is the field [sending].
    - Everything the broker, the HTTP client and [encoding/json] decide is
      a field of the class [Env]; the properties hold for every instance.
    - On a 32-bit target Go's [int] has 32 bits; [IntSize] is the one place
      that says 64. *)

From Stdlib Require Import ZArith Lia Ascii String DecimalString DecimalZ DecimalPos.
From stdpp Require Import gmap strings list fin_maps.

Local Open Scope Z_scope.

(** ** Strings *)

Abbreviation bytes := (list Byte.byte).
Abbreviation error := string (only parsing).

(** [s[n:]] for [n <= len(s)]. *)
Fixpoint slice_from (n : nat) (s : string) : string :=
  match n, s with
  | O, _ => s
  | S n', String _ s' => slice_from n' s'
  | S _, EmptyString => EmptyString
  end.

(** [strings.HasSuffix]:
    [len(s) >= len(suffix) && s[len(s)-len(suffix):] == suffix]. *)
Definition HasSuffix (s suffix : string) : bool :=
  (String.length suffix <=? String.length s)%nat
  && String.eqb (slice_from (String.length s - String.length suffix) s) suffix.

(** [strings.Contains(s, "-")], the separator test of the topic scheme. *)
Fixpoint contains_sep (s : string) : bool :=
  match s with
  | EmptyString => false
  | String c s' => Ascii.eqb c "-"%char || contains_sep s'
  end.

(** ** Go [int] and [strconv.Itoa] *)

Definition IntSize : Z := 64.
Definition MaxInt : Z := 2 ^ (IntSize - 1) - 1.
Definition MinInt : Z := - 2 ^ (IntSize - 1).

(** Two's complement wrap-around of an [int] result. *)
Definition wrap_int (z : Z) : Z :=
  (z + 2 ^ (IntSize - 1)) mod 2 ^ IntSize - 2 ^ (IntSize - 1).

(** [strconv.Itoa]: decimal digits, a leading [-] for negative numbers. *)
Definition Itoa (z : Z) : string := NilZero.string_of_int (Z.to_int z).

(** The integer a decimal string denotes, when it denotes one. *)
Definition Atoi (s : string) : option Z :=
  Z.of_int <$> NilZero.int_of_string s.

(** ** Topics *)

Module topic.

Record t := mk {
  ServiceName : string;
  ServiceID : string;
  ContentType : string
}.

(** [func (t topic) getName() string] *)
Definition getName (t : t) : string :=
  ServiceName t +:+ "-" +:+ ServiceID t +:+ "-" +:+ ContentType t.

End topic.

(** ** Messages and services *)

Definition messageID := string.

(** [time.Time], kept abstract as a number of nanoseconds. *)
Definition time := Z.

Record Message := mkMessage {
  FromName : string;
  Payload : bytes;
  Time : time;
  ContentType : string;
  MessageID : messageID;
  Topic : topic.t;
  ResponseTopic : topic.t
}.

Record Service := mkService {
  Name : string;
  ID : string;
  i : Z;
  nsqLookupdHTTPAddr : string;
  nsqdAddr : string;
  nsqdHTTPAddr : string;
  responseTopic : topic.t
}.

(** The record [NewService] builds once it has picked an nsqd node; the
    counter [i] is left at its zero value. *)
Definition NewService_record (name id nsqLookupd addr httpAddr : string) : Service :=
  {| Name := name; ID := id; i := 0;
     nsqLookupdHTTPAddr := nsqLookupd;
     nsqdAddr := addr; nsqdHTTPAddr := httpAddr;
     responseTopic := topic.mk name id "responses" |}.

Definition set_i (s : Service) (n : Z) : Service :=
  {| Name := Name s; ID := ID s; i := n;
     nsqLookupdHTTPAddr := nsqLookupdHTTPAddr s;
     nsqdAddr := nsqdAddr s; nsqdHTTPAddr := nsqdHTTPAddr s;
     responseTopic := responseTopic s |}.

(** [func (s *Service) nextID() messageID]: [s.i = s.i + 1] on a Go [int],
    then [strconv.Itoa(s.i)]. The updated service is returned with the id. *)
Definition nextID (s : Service) : messageID * Service :=
  let n := wrap_int (i s + 1) in
  (Itoa n, set_i s n).

(** [func (s *Service) NewMessage(contentType string, payload []byte) Message];
    [now] is what [time.Now()] returns. *)
Definition NewMessage (s : Service) (contentType : string) (payload : bytes)
    (now : time) : Message * Service :=
  let from := topic.mk (Name s) (ID s) contentType in
  let '(id, s') := nextID s in
  ({| Topic := from;
      FromName := Name s;
      Payload := payload;
      Time := now;
      ResponseTopic := responseTopic s;
      MessageID := id;
      ContentType := contentType |}, s').

(** [func (s *Service) NewResponse(m Message, contentType string, payload []byte) Message] *)
Definition NewResponse (s : Service) (m : Message) (contentType : string)
    (payload : bytes) (now : time) : Message :=
  {| Topic := ResponseTopic m;
     FromName := Name s;
     Payload := payload;
     Time := now;
     ResponseTopic := responseTopic s;
     MessageID := MessageID m;
     ContentType := contentType |}.

(** Successive calls of [NewMessage] on one service: the arguments of the
    calls in order, the messages they return, and the service afterwards. *)
Fixpoint NewMessages (s : Service) (calls : list (string * bytes * time))
    : list Message * Service :=
  match calls with
  | [] => ([], s)
  | (ct, payload, now) :: rest =>
      let '(m, s1) := NewMessage s ct payload now in
      let '(ms, s2) := NewMessages s1 rest in
      (m :: ms, s2)
  end.

(** ** Handlers and the actor loop [func (s Service) start()] *)

(** [type Handler func(<-chan Message) error]. A handler that talks to the
    rest of the program through its channel only is determined by what it
    does after each sequence of messages read so far: [None] when it reads
    the channel once more, [Some r] when it returns [r] ([r = None] is a nil
    error). A handler that never returns answers [None] for ever. *)
Definition Handler := list Message → option (option error).

Module handlerIDPair.

Record t := mk {
  h : Handler;
  id : messageID
}.

End handlerIDPair.

(** Where the goroutine started for a registration stands: inside
    [pair.h(c)], blocked on [s.removeHandlerChan <- pair], or finished. *)
Inductive TaskState := InHandler | SendingRemove | Finished.

(** The goroutine [go func() { err := pair.h(c); ... }()] of one
    registration, with the messages its handler has read from [c]. *)
Record Task := mkTask {
  task_pair : handlerIDPair.t;
  task_received : list Message;
  task_state : TaskState
}.

(** The state the loop of [start] works on. Channels made by
    [make(chan Message)] in the add case are numbered in order of creation,
    so the goroutine of channel [c] is [tasks !! c]. [sending] is the
    blocked send [c <- msg] of the dispatch case, [exited] the argument of
    [log.Fatal] once it was called. *)
Record ActorState := mkActor {
  handlers : gmap messageID nat;
  tasks : list Task;
  sending : option (nat * Message);
  exited : option error
}.

Definition actor_init : ActorState :=
  {| handlers := ∅; tasks := []; sending := None; exited := None |}.

(** What can happen next: one of the three cases of the [select], taken
    when the loop stands at it, or a step of a handler goroutine. *)
Inductive Event :=
| AddHandler (pair : handlerIDPair.t)
| RemoveHandler (c : nat)
| CallHandler (msg : Message)
| HandlerRuns (c : nat).

Definition set_handlers (st : ActorState) (hs : gmap messageID nat) : ActorState :=
  {| handlers := hs; tasks := tasks st; sending := sending st; exited := exited st |}.

Definition set_tasks (st : ActorState) (ts : list Task) : ActorState :=
  {| handlers := handlers st; tasks := ts; sending := sending st; exited := exited st |}.

Definition set_sending (st : ActorState) (o : option (nat * Message)) : ActorState :=
  {| handlers := handlers st; tasks := tasks st; sending := o; exited := exited st |}.

Definition set_exited (st : ActorState) (e : error) : ActorState :=
  {| handlers := handlers st; tasks := tasks st; sending := sending st; exited := Some e |}.

(** [case pair := <-s.addHandlerChan]: a new channel, the map entry, and
    the goroutine that runs the handler. *)
Definition add_case (st : ActorState) (pair : handlerIDPair.t) : ActorState :=
  let c := length (tasks st) in
  set_tasks (set_handlers st (<[handlerIDPair.id pair := c]> (handlers st)))
            (tasks st ++ [mkTask pair [] InHandler]).

(** [case pair := <-s.removeHandlerChan]: [delete(s.handlers, pair.id)];
    the goroutine of channel [c], which sent the pair, ends. *)
Definition remove_case (st : ActorState) (c : nat) (t : Task) : ActorState :=
  set_tasks (set_handlers st (delete (handlerIDPair.id (task_pair t)) (handlers st)))
            (<[c := mkTask (task_pair t) (task_received t) Finished]> (tasks st)).

(** [case msg := <-s.callHandlerChan]: look the id up; [continue] when it
    is absent, else [c <- msg], which blocks until the handler reads. *)
Definition call_case (st : ActorState) (msg : Message) : ActorState :=
  match handlers st !! MessageID msg with
  | None => st
  | Some c => set_sending st (Some (c, msg))
  end.

(** A step of the goroutine of channel [c] while it is inside the handler:
    the handler returns an error ([log.Fatal]), returns nil (the goroutine
    goes on to [s.removeHandlerChan <- pair]), or reads its channel, which
    it can when the loop is blocked sending on [c]. *)
Definition handler_case (st : ActorState) (c : nat) (t : Task) : option ActorState :=
  match handlerIDPair.h (task_pair t) (task_received t) with
  | Some (Some e) => Some (set_exited st e)
  | Some None =>
      Some (set_tasks st (<[c := mkTask (task_pair t) (task_received t) SendingRemove]> (tasks st)))
  | None =>
      match sending st with
      | Some (c', msg) =>
          if decide (c' = c) then
            Some (set_sending
                    (set_tasks st (<[c := mkTask (task_pair t) (task_received t ++ [msg]) InHandler]>
                                     (tasks st)))
                    None)
          else None
      | None => None
      end
  end.

Definition at_select (st : ActorState) : bool :=
  match sending st with None => true | Some _ => false end.

(** One step of the service; [None] when the event cannot happen in [st]. *)
Definition step (st : ActorState) (ev : Event) : option ActorState :=
  match exited st with
  | Some _ => None
  | None =>
      match ev with
      | AddHandler p =>
          if at_select st then Some (add_case st p) else None
      | RemoveHandler c =>
          if at_select st then
            match tasks st !! c with
            | Some t =>
                match task_state t with
                | SendingRemove => Some (remove_case st c t)
                | _ => None
                end
            | None => None
            end
          else None
      | CallHandler msg =>
          if at_select st then Some (call_case st msg) else None
      | HandlerRuns c =>
          match tasks st !! c with
          | Some t =>
              match task_state t with
              | InHandler => handler_case st c t
              | _ => None
              end
          | None => None
          end
      end
  end.

(** A run: the events in order, from [st]. *)
Fixpoint exec (st : ActorState) (evs : list Event) : option ActorState :=
  match evs with
  | [] => Some st
  | ev :: rest =>
      match step st ev with
      | Some st' => exec st' rest
      | None => None
      end
  end.

(** ** The operations that talk to the broker *)

Module createTopicResponse.

Record t := mk {
  Status_code : Z;
  Status_txt : string;
  Data : string
}.

End createTopicResponse.

Module lookupdTopics.

Record t := mk {
  Topics : list string
}.

End lookupdTopics.

Module lookupdTopic.

Record t := mk {
  Status_code : Z;
  Status_txt : string;
  Data : lookupdTopics.t
}.

End lookupdTopic.

Module consumer.

Record t := mk {
  C : nat;
  ContentType : string
}.

End consumer.

(** The [nsq.Handler] given to [AddHandler]: the service itself
    ([Service.HandleMessage]) or a [queueConsumer{C: c}]. *)
Inductive Sink := ToService | ToChan (c : nat).

(** What an operation does to the world outside it, in order. [Subscribe]
    stands for a successful [nsq.NewConsumer] followed by [AddHandler] and
    [ConnectToNSQLookupd]. A send on one of the service's channels is a
    rendezvous with the [select] of [start]: [SendAddHandler p] is taken by
    the event [AddHandler p], [SendCallHandler m] by [CallHandler m]. *)
Inductive Effect :=
| SendAddHandler (p : handlerIDPair.t)
| SendCallHandler (msg : Message)
| SendChan (c : nat) (msg : Message)
| HttpGet (url : string)
| Publish (topic : string) (body : bytes)
| Subscribe (topic channel : string) (sink : Sink)
| GoWatchForContentType (contentType : string) (inbound : nat).

(** How a call ends: it returns, the process exits in [log.Fatal], or the
    call never returns. *)
Inductive Outcome (A : Type) : Type :=
| Ret (a : A)
| Fatal (e : error)
| Hang.
Arguments Ret {A} a.
Arguments Fatal {A} e.
Arguments Hang {A}.

Record World := mkWorld {
  effects : list Effect;
  next_chan : nat
}.

Definition world0 : World := {| effects := []; next_chan := 0 |}.

Definition M (A : Type) : Type := World → World * Outcome A.

#[export] Instance M_ret : MRet M := λ A a w, (w, Ret a).

#[export] Instance M_bind : MBind M := λ A B f m w,
  match m w with
  | (w', Ret a) => f a w'
  | (w', Fatal e) => (w', Fatal e)
  | (w', Hang) => (w', Hang)
  end.

Definition perform (e : Effect) : M unit :=
  λ w, ({| effects := effects w ++ [e]; next_chan := next_chan w |}, Ret tt).

(** [log.Fatal(err)] *)
Definition log_Fatal {A} (e : error) : M A := λ w, (w, Fatal e).

(** [make(chan Message)] outside the actor loop. *)
Definition make_chan : M nat :=
  λ w, ({| effects := effects w; next_chan := S (next_chan w) |}, Ret (next_chan w)).

(** Everything the code asks of [encoding/json], [net/http] and [go-nsq],
    and the messages each consumer channel will carry. An error is the
    left summand, as Go's [err != nil]. *)
Class Env := {
  json_Marshal : Message → error + bytes;
  json_Unmarshal_Message : bytes → error + Message;
  json_Unmarshal_lookupdTopic : bytes → error + lookupdTopic.t;
  json_Unmarshal_createTopicResponse : bytes → createTopicResponse.t;
  http_Get : string → error + bytes;
  nsq_NewConsumer : string → string → option error;
  producer_Publish : string → bytes → option error;
  conf_Set : string → string → option error;
  chan_traffic : nat → list Message
}.

(** Whether a send on one of the unbuffered channels meets its receiver:
    the [select] of [start] for [addHandlerChan] and [callHandlerChan], the
    reader of a consumer channel for [c.C]. The sender cannot tell; what
    the process did before may matter, so the world is an argument. *)
Class Receivers := {
  taken : World → Effect → bool
}.

(** [ch <- v] on an unbuffered channel: the send happens when the receiver
    takes it, and the sender stays blocked in it when no receiver ever
    does, as is the case for the channels of a loop that is blocked for
    good. *)
Definition send `{Receivers} (e : Effect) : M unit :=
  λ w, if taken w e then perform e w else (w, Hang).

(** A handler called on a channel that will carry [incoming]: it returns
    after the first prefix at which it decides to, and never if it still
    wants to read when the channel has nothing more. *)
Fixpoint run_handler (h : Handler) (seen incoming : list Message)
    : Outcome (option error) :=
  match h seen with
  | Some r => Ret r
  | None =>
      match incoming with
      | [] => Hang
      | m :: rest => run_handler h (seen ++ [m]) rest
      end
  end.

(** The loop of [lookupTopics]:
    [for _, topic := range ... { if strings.HasSuffix(topic, contentType) { out = append(out, topic) } }] *)
Definition select_topics (contentType : string) (topics : list string) : list string :=
  fold_left (λ out topic, if HasSuffix topic contentType then out ++ [topic] else out)
            topics [].

Section Operations.
Context `{Env} `{Receivers}.

(** [http.Get(url)] and [ioutil.ReadAll(resp.Body)], whose error the code drops. *)
Definition http_get (url : string) : M (error + bytes) :=
  _ ← perform (HttpGet url); mret (http_Get url).

(** [s.producer.Publish(topic, body)] *)
Definition publish (topic : string) (body : bytes) : M (option error) :=
  _ ← perform (Publish topic body); mret (producer_Publish topic body).

(** [nsq.NewConsumer(topic, channel, conf)], [log.Fatal] on its error, then
    [c.AddHandler(sink)] and [c.ConnectToNSQLookupd(...)]. *)
Definition subscribe (topic channel : string) (sink : Sink) : M unit :=
  match nsq_NewConsumer topic channel with
  | Some err => log_Fatal err
  | None => perform (Subscribe topic channel sink)
  end.

(** [func (s *Service) createTopic(topic string) error] *)
Definition createTopic (s : Service) (topic : string) : M (option error) :=
  r ← http_get ("http://" +:+ nsqdHTTPAddr s +:+ "/create_topic?topic=" +:+ topic);
  match r with
  | inl err => log_Fatal err
  | inr body =>
      let r := json_Unmarshal_createTopicResponse body in
      if decide (createTopicResponse.Status_code r ≠ 200)
      then mret (Some ("could not creat topic " +:+ topic))
      else mret None
  end.

(** [func (s Service) HandleMessage(m *nsq.Message) error], the handler of
    the service's response topic; [body] is [m.Body]. *)
Definition HandleMessage (s : Service) (body : bytes) : M (option error) :=
  match json_Unmarshal_Message body with
  | inl err => mret (Some err)
  | inr out => _ ← send (SendCallHandler out); mret None
  end.

(** [func (c queueConsumer) HandleMessage(m *nsq.Message) error] *)
Definition queueConsumer_HandleMessage (c : nat) (body : bytes) : M (option error) :=
  match json_Unmarshal_Message body with
  | inl err => log_Fatal err
  | inr out => _ ← send (SendChan c out); mret None
  end.

(** [func (s *Service) responseHandler()] *)
Definition responseHandler (s : Service) : M unit :=
  let channelName := Name s +:+ "-" +:+ ID s +:+ "-responseHandler" in
  match conf_Set "lookupd_poll_interval" "5s" with
  | Some err => log_Fatal err
  | None =>
      err ← createTopic s (topic.getName (responseTopic s));
      match err with
      | Some err => log_Fatal err
      | None =>
          let topicName := topic.getName (responseTopic s) in
          subscribe topicName channelName ToService
      end
  end.

(** [func (s Service) Announce(contentType string) error] *)
Definition Announce (s : Service) (contentType : string) (now : time) : M (option error) :=
  let topicToAnnounce := topic.mk (Name s) (ID s) contentType in
  let m := {| FromName := Name s;
              Payload := [];
              Time := now;
              ContentType := contentType;
              MessageID := "";
              Topic := topicToAnnounce;
              ResponseTopic := topic.mk "" "" "" |} in
  match json_Marshal m with
  | inl err => log_Fatal err
  | inr out =>
      _ ← createTopic s (topic.getName topicToAnnounce);
      _ ← publish "colony-announce" out;
      mret None
  end.

(** [func (s Service) produce(m Message, h Handler) error]; a nil handler
    is [None]. *)
Definition produce (s : Service) (m : Message) (h : option Handler) : M (option error) :=
  _ ← match h with
      | Some h => send (SendAddHandler (handlerIDPair.mk h (MessageID m)))
      | None => mret tt
      end;
  let topic := topic.getName (Topic m) in
  match json_Marshal m with
  | inl err => log_Fatal err
  | inr out =>
      _ ← publish topic out;
      mret None
  end.

(** [func (s Service) Emit(m Message) error] *)
Definition Emit (s : Service) (m : Message) : M (option error) :=
  produce s m None.

(** [func (s Service) Request(m Message, h Handler) error] *)
Definition Request (s : Service) (m : Message) (h : option Handler) : M (option error) :=
  produce s m h.

(** [func (s Service) lookupTopics(contentType string) []string] *)
Definition lookupTopics (s : Service) (contentType : string) : M (list string) :=
  r ← http_get ("http://" +:+ nsqLookupdHTTPAddr s +:+ "/topics");
  match r with
  | inl err => log_Fatal err
  | inr body =>
      match json_Unmarshal_lookupdTopic body with
      | inl err => log_Fatal err
      | inr t =>
          mret (select_topics contentType
                  (lookupdTopics.Topics (lookupdTopic.Data t)))
      end
  end.

(** The loop of [newConsumer] over [topicsToConsume]. *)
Fixpoint subscribe_each (topics : list string) (channel : string) (inbound : nat)
    : M unit :=
  match topics with
  | [] => mret tt
  | topic :: rest =>
      _ ← subscribe topic channel (ToChan inbound);
      subscribe_each rest channel inbound
  end.

(** [func (s Service) newConsumer(contentType string) consumer] *)
Definition newConsumer (s : Service) (contentType : string) : M consumer.t :=
  inbound ← make_chan;
  let consumer := consumer.mk inbound contentType in
  topicsToConsume ← lookupTopics s contentType;
  let channel := Name s +:+ "-" +:+ ID s in
  _ ← subscribe_each topicsToConsume channel inbound;
  _ ← perform (GoWatchForContentType contentType inbound);
  mret consumer.

(** [h(consumer.C)]: the handler runs on what the channel will carry. *)
Definition call_handler (h : Handler) (c : nat) : M (option error) :=
  λ w, (w, run_handler h [] (chan_traffic c)).

(** [func (s Service) Consume(contentType string, h Handler) error] *)
Definition Consume (s : Service) (contentType : string) (h : Handler) : M (option error) :=
  consumer ← newConsumer s contentType;
  _ ← call_handler h (consumer.C consumer);
  mret None.

End Operations.

(** The topics of the subscriptions among some effects, in order. *)
Definition subscribed (l : list Effect) : list string :=
  omap (λ e, match e with Subscribe topic _ _ => Some topic | _ => None end) l.

(** The registrations handed to the actor among some effects, in order. *)
Definition registered (l : list Effect) : list handlerIDPair.t :=
  omap (λ e, match e with SendAddHandler p => Some p | _ => None end) l.

(** ** Invariant of the actor loop, and sample values *)

(** The correlation id each channel was made for, by channel number. *)
Definition chan_ids (st : ActorState) : list messageID :=
  (λ t, handlerIDPair.id (task_pair t)) <$> tasks st.

(** Every map entry points at a channel made for its key, a blocked send
    goes to a channel made for the id of the message sent, and a handler
    has read only messages of the id its channel was made for. *)
Definition routes_by_id (st : ActorState) : Prop :=
  (∀ X c, handlers st !! X = Some c → chan_ids st !! c = Some X)
  ∧ (∀ c msg, sending st = Some (c, msg) → chan_ids st !! c = Some (MessageID msg))
  ∧ (∀ c t msg, tasks st !! c = Some t → msg ∈ task_received t →
                MessageID msg = handlerIDPair.id (task_pair t)).

(** The service of the honeybadger example. *)
Definition honeybadger : Service :=
  NewService_record "honeybadger" "1" "localhost:4161" "127.0.0.1:4150" "127.0.0.1:4151".

(** [func(c <-chan Message) error { for { <-c } }] *)
Definition reads_forever : Handler := λ _, None.

(** [func(c <-chan Message) error { return nil }] *)
Definition returns_nil : Handler := λ _, Some None.

(** [func(c <-chan Message) error { return errors.New("boom") }] *)
Definition returns_boom : Handler := λ _, Some (Some "boom").

(** A response carrying the correlation id [id]. *)
Definition response_with_id (id : messageID) : Message :=
  {| FromName := "bee"; Payload := []; Time := 0; ContentType := "ack";
     MessageID := id;
     Topic := topic.mk "honeybadger" "1" "responses";
     ResponseTopic := topic.mk "bee" "2" "responses" |}.

(** The state after [returns_boom], registered under "1", has returned. *)
Definition after_boom : ActorState :=
  {| handlers := {["1" := 0%nat]};
     tasks := [mkTask (handlerIDPair.mk returns_boom "1") [] InHandler];
     sending := None;
     exited := Some "boom" |}.

(** No error is handed back to the caller: the call returns nil, or it
    does not return (the process exits, or the call stays inside). *)
Definition returns_no_error (o : Outcome (option error)) : Prop :=
  match o with
  | Ret r => r = None
  | Fatal _ => True
  | Hang => True
  end.

(** Receivers that take every send at once, and receivers that take none:
    the loop at its [select], and the loop blocked for good on the channel
    of a handler that has returned. *)
Definition always_taken : Receivers := {| taken := λ _ _, true |}.

Definition never_taken : Receivers := {| taken := λ _ _, false |}.

(** Stand-ins for the collaborators, for the examples: lookupd lists three
    topics, nsqd answers every request with status 200, go-nsq accepts
    every topic and channel name and every publish, every message encodes
    (to a body left empty here), and no body decodes as a Message: the
    examples decode the empty body only, which is no JSON text. *)
Definition demo_topics : list string :=
  ["honeybadger-1-bees"; "bear-2-honey"; "hive-3-bees"].

Definition demo_env : Env :=
  {| json_Marshal := λ _, inr [];
     json_Unmarshal_Message := λ _, inl "unexpected end of JSON input";
     json_Unmarshal_lookupdTopic :=
       λ _, inr (lookupdTopic.mk 200 "OK" (lookupdTopics.mk demo_topics));
     json_Unmarshal_createTopicResponse := λ _, createTopicResponse.mk 200 "OK" "";
     http_Get := λ _, inr [];
     nsq_NewConsumer := λ _ _, None;
     producer_Publish := λ _ _, None;
     conf_Set := λ _ _, None;
     chan_traffic := λ _, [] |}.

(** The same collaborators with a broker in trouble: every publish fails
    and nsqd answers every [create_topic] with status 500. *)
Definition failing_env : Env :=
  {| json_Marshal := λ _, inr [];
     json_Unmarshal_Message := λ _, inl "unexpected end of JSON input";
     json_Unmarshal_lookupdTopic :=
       λ _, inr (lookupdTopic.mk 200 "OK" (lookupdTopics.mk demo_topics));
     json_Unmarshal_createTopicResponse :=
       λ _, createTopicResponse.mk 500 "INTERNAL_ERROR" "";
     http_Get := λ _, inr [];
     nsq_NewConsumer := λ _ _, None;
     producer_Publish := λ _ _, Some "not connected";
     conf_Set := λ _ _, None;
     chan_traffic := λ _, [] |}.

(** ** The rest of the discovery protocol and of the bootstrap *)

(** A call that stays blocked, as a receive on a channel nobody sends on. *)
Definition hang {A} : M A := λ w, (w, Hang).

Section Discovery.
Context `{Env}.

(** The [for] loop of [watchForContentType] on the announcements its channel
    carries: an announcement of another content type is skipped
    ([continue]), one of this content type gets a consumer on the announced
    topic that feeds [inbound]; after the last one the loop waits on
    [<-announcements]. *)
Fixpoint watch_loop (s : Service) (contentType : string) (inbound : nat)
    (announcements : list Message) : M unit :=
  match announcements with
  | [] => hang
  | msg :: rest =>
      if decide (ContentType msg ≠ contentType)
      then watch_loop s contentType inbound rest
      else
        _ ← subscribe (topic.getName (Topic msg)) (Name s +:+ "-" +:+ ID s) (ToChan inbound);
        watch_loop s contentType inbound rest
  end.

(** [func (s Service) watchForContentType(contentType string, inbound chan Message)] *)
Definition watchForContentType (s : Service) (contentType : string) (inbound : nat)
    : M unit :=
  let channel := Name s +:+ "-" +:+ ID s +:+ "-" +:+ contentType in
  _ ← createTopic s "colony-announce";
  match nsq_NewConsumer "colony-announce" channel with
  | Some err => log_Fatal err
  | None =>
      announcements ← make_chan;
      _ ← perform (Subscribe "colony-announce" channel (ToChan announcements));
      watch_loop s contentType inbound (chan_traffic announcements)
  end.

End Discovery.

Module producer.

Record t := mk {
  Topics : list string;
  Tombstones : list string;
  Version : string;
  Http_port : Z;
  Tcp_port : Z;
  Broadcast_address : string;
  Hostname : string;
  Remote_address : string
}.

End producer.

Module producers.

Record t := mk {
  Producers : list producer.t
}.

End producers.

Module nodesResponse.

Record t := mk {
  Status_code : Z;
  Status_txt : string;
  Data : producers.t
}.

End nodesResponse.

(** What [NewService] asks beyond [Env]: the decoding of lookupd's answer
    (the error of [json.Unmarshal] is dropped there, so the result is a
    value in every case), [rand.Intn], which answers below its argument,
    and [nsq.NewProducer]. *)
Class BootEnv := {
  json_Unmarshal_nodesResponse : bytes → nodesResponse.t;
  rand_Intn : nat → nat;
  rand_Intn_lt : ∀ n, (0 < n)%nat → (rand_Intn n < n)%nat;
  nsq_NewProducer : string → option error
}.

Section Bootstrap.
Context `{Env} `{BootEnv}.

(** [func NewService(name, id, nsqLookupd string) *Service], up to the
    banner and [go s.start()], whose loop starts in [actor_init]. The error
    of [conf.Set] is overwritten by the one of [nsq.NewProducer]. The test
    [nProducers <= 0] is the case of the empty list, and the index
    [rand.Intn(nProducers)] is in range by [rand_Intn_lt]. *)
Definition NewService (name id nsqLookupd : string) : M Service :=
  r ← http_get ("http://" +:+ nsqLookupd +:+ "/nodes");
  match r with
  | inl err => log_Fatal err
  | inr body =>
      let n := json_Unmarshal_nodesResponse body in
      if decide (nodesResponse.Status_code n ≠ 200)
      then log_Fatal "could not get list of nsqd nodes"
      else
        let all := producers.Producers (nodesResponse.Data n) in
        let nProducers := length all in
        match all with
        | [] => log_Fatal "found no NSQ daemons"
        | first :: _ =>
            let productionNSQD := nth (rand_Intn nProducers) all first in
            let nsqdAddr := producer.Broadcast_address productionNSQD +:+ ":"
                            +:+ Itoa (producer.Tcp_port productionNSQD) in
            let nsqdHTTPAddr := producer.Broadcast_address productionNSQD +:+ ":"
                                +:+ Itoa (producer.Http_port productionNSQD) in
            match nsq_NewProducer nsqdAddr with
            | Some err => log_Fatal err
            | None => mret (NewService_record name id nsqLookupd nsqdAddr nsqdHTTPAddr)
            end
        end
  end.

End Bootstrap.

(** ** Runs of the actor loop, seen from outside *)

(** The messages the loop took from [callHandlerChan] during a run. *)
Definition calls (evs : list Event) : list Message :=
  omap (λ ev, match ev with CallHandler msg => Some msg | _ => None end) evs.

(** The message the loop is blocked sending on channel [c], if any. *)
Definition in_flight (st : ActorState) (c : nat) : list Message :=
  match sending st with
  | Some (c', msg) => if decide (c' = c) then [msg] else []
  | None => []
  end.

(** What the goroutine of every channel has read, followed by what is
    being sent to it, is a subsequence of [l]. *)
Definition reads_within (st : ActorState) (l : list Message) : Prop :=
  ∀ c t, tasks st !! c = Some t → (task_received t ++ in_flight st c) `sublist_of` l.

(** The loop is blocked sending [msg] on channel [c] while the goroutine of
    [c] has left its handler. *)
Definition stuck_on (st : ActorState) (c : nat) (msg : Message) : Prop :=
  sending st = Some (c, msg)
  ∧ ∃ t, tasks st !! c = Some t ∧ task_state t ≠ InHandler.

(** No registration of the id [X] is taken during the run. *)
Definition no_add_for (X : messageID) (evs : list Event) : Prop :=
  ∀ p, AddHandler p ∈ evs → handlerIDPair.id p ≠ X.

(** Channel [c] exists, no key of the map leads to it and the loop is not
    sending on it. *)
Definition orphaned (st : ActorState) (c : nat) : Prop :=
  (c < length (tasks st))%nat
  ∧ (∀ X, handlers st !! X ≠ Some c)
  ∧ (∀ msg, sending st ≠ Some (c, msg)).

(** What a goroutine of channel [c] has read, when there is one. *)
Definition received_on (st : ActorState) (c : nat) : option (list Message) :=
  task_received <$> tasks st !! c.

(** What was done between the world [w] and a later world [w']. *)
Definition effects_since (w w' : World) : list Effect :=
  drop (length (effects w)) (effects w').

(** The events by which the loop takes what the operations send to it. *)
Definition actor_events (l : list Effect) : list Event :=
  omap (λ e, match e with
             | SendAddHandler p => Some (AddHandler p)
             | SendCallHandler msg => Some (CallHandler msg)
             | _ => None
             end) l.

(** The loop blocked on the channel of a handler that has returned, while
    a second handler is still running, and the same after that one has
    returned too. *)
Definition blocked_before : ActorState :=
  {| handlers := {["1" := 0%nat; "2" := 1%nat]};
     tasks := [mkTask (handlerIDPair.mk returns_nil "1") [] SendingRemove;
               mkTask (handlerIDPair.mk returns_nil "2") [] InHandler];
     sending := Some (0%nat, response_with_id "1");
     exited := None |}.

Definition blocked_after : ActorState :=
  {| handlers := {["1" := 0%nat; "2" := 1%nat]};
     tasks := [mkTask (handlerIDPair.mk returns_nil "1") [] SendingRemove;
               mkTask (handlerIDPair.mk returns_nil "2") [] SendingRemove];
     sending := Some (0%nat, response_with_id "1");
     exited := None |}.

(** A codec under which every body reads as the response with id "1". *)
Definition reply_env : Env :=
  {| json_Marshal := λ _, inr [];
     json_Unmarshal_Message := λ _, inr (response_with_id "1");
     json_Unmarshal_lookupdTopic :=
       λ _, inr (lookupdTopic.mk 200 "OK" (lookupdTopics.mk demo_topics));
     json_Unmarshal_createTopicResponse := λ _, createTopicResponse.mk 200 "OK" "";
     http_Get := λ _, inr [];
     nsq_NewConsumer := λ _ _, None;
     producer_Publish := λ _ _, None;
     conf_Set := λ _ _, None;
     chan_traffic := λ _, [] |}.

(** Stand-ins for the bootstrap: lookupd reports two nsqd nodes, the first
    of which is picked. *)
Definition demo_nodes : list producer.t :=
  [producer.mk [] [] "0.2.31" 4151 4150 "127.0.0.1" "hive" "127.0.0.1:51000";
   producer.mk [] [] "0.2.31" 4251 4250 "127.0.0.2" "nest" "127.0.0.2:51000"].

Lemma demo_rand_lt (n : nat) : (0 < n)%nat → (0 < n)%nat.
Proof. exact (λ Hn, Hn). Qed.

Definition demo_boot : BootEnv :=
  {| json_Unmarshal_nodesResponse :=
       λ _, nodesResponse.mk 200 "OK" (producers.mk demo_nodes);
     rand_Intn := λ _, 0%nat;
     rand_Intn_lt := demo_rand_lt;
     nsq_NewProducer := λ _, None |}.

(** The announcement [Announce] publishes for [contentType]. *)
Definition announcement (s : Service) (contentType : string) (now : time) : Message :=
  {| FromName := Name s;
     Payload := [];
     Time := now;
     ContentType := contentType;
     MessageID := "";
     Topic := topic.mk (Name s) (ID s) contentType;
     ResponseTopic := topic.mk "" "" "" |}.


(** * Properties *)

(** ** Strings *)

Lemma slice_from_app (p s : string) :
  slice_from (String.length p) (p +:+ s) = s.
Proof. induction p as [|c p IH]; simpl; [reflexivity | exact IH]. Qed.

Lemma length_append (p s : string) :
  String.length (p +:+ s) = (String.length p + String.length s)%nat.
Proof. induction p as [|c p IH]; simpl; [reflexivity | now rewrite IH]. Qed.

(** Cutting [s] at [n <= len(s)] loses nothing: some prefix goes before
    [s[n:]]. *)
Lemma slice_from_prefix (n : nat) (s : string) :
  (n ≤ String.length s)%nat → ∃ p, s = p +:+ slice_from n s.
Proof.
  revert s. induction n as [|n IH]; intros s Hn.
  - exists EmptyString. reflexivity.
  - destruct s as [|c s]; simpl in *; [lia|].
    destruct (IH s) as [p Hp]; [lia|].
    exists (String c p). change (String c s = String c (p +:+ slice_from n s)).
    now f_equal.
Qed.

(** [strings.HasSuffix] decides "ends with". *)
Lemma HasSuffix_spec (s suffix : string) :
  HasSuffix s suffix = true ↔ ∃ p, s = p +:+ suffix.
Proof.
  unfold HasSuffix. split.
  - intros Hs. apply andb_true_iff in Hs as [Hlen Heq].
    apply Nat.leb_le in Hlen. apply String.eqb_eq in Heq.
    destruct (slice_from_prefix (String.length s - String.length suffix) s) as [p Hp];
      [lia|].
    exists p. now rewrite Heq in Hp.
  - intros [p ->]. rewrite length_append.
    apply andb_true_iff. split; [apply Nat.leb_le; lia|].
    replace (String.length p + String.length suffix - String.length suffix)%nat
      with (String.length p) by lia.
    rewrite slice_from_app. apply String.eqb_refl.
Qed.

(** A string without the separator, followed by the separator, can be
    read back: the first separator of the whole marks where it ended. *)
Lemma sep_split (a a' r r' : string) :
  contains_sep a = false → contains_sep a' = false →
  a +:+ String "-" r = a' +:+ String "-" r' → a = a' ∧ r = r'.
Proof.
  revert a'. induction a as [|c a IH]; intros [|c' a'] Ha Ha' Heq; simpl in *.
  - now inversion Heq.
  - inversion Heq; subst c'. rewrite Ascii.eqb_refl in Ha'. discriminate.
  - inversion Heq; subst c. rewrite Ascii.eqb_refl in Ha. discriminate.
  - apply orb_false_iff in Ha as [_ Ha]. apply orb_false_iff in Ha' as [_ Ha'].
    inversion Heq; subst c'.
    destruct (IH a' Ha Ha') as [-> ->]; auto.
Qed.

(** ** Go [int] and decimal ids *)

Lemma Atoi_Itoa (z : Z) : Atoi (Itoa z) = Some z.
Proof.
  unfold Atoi, Itoa. rewrite NilZero.isi.
  - simpl. now rewrite DecimalZ.of_to.
  - destruct z; simpl; try discriminate.
    intros [= Hp]. now apply (Unsigned.to_uint_nonnil p).
  - destruct z; simpl; try discriminate.
    intros [= Hp]. now apply (Unsigned.to_uint_nonnil p).
Qed.

Lemma Itoa_inj (a b : Z) : Itoa a = Itoa b → a = b.
Proof.
  intros Hab. apply (f_equal Atoi) in Hab.
  rewrite !Atoi_Itoa in Hab. now inversion Hab.
Qed.

Lemma wrap_int_in_range (z : Z) : MinInt ≤ z ≤ MaxInt → wrap_int z = z.
Proof.
  unfold MinInt, MaxInt, wrap_int, IntSize. intros Hz.
  rewrite Z.mod_small; lia.
Qed.

Lemma wrap_int_MaxInt_succ : wrap_int (MaxInt + 1) = MinInt.
Proof. reflexivity. Qed.

(** ** Topic names *)

(** C6: the topic name is [serviceName-serviceID-contentType], a function of
    the three components, and on topics none of whose components contains
    the separator [-] two topics have the same name exactly when they are
    the same topic. *)
Theorem getName_injective (t1 t2 : topic.t) :
  contains_sep (topic.ServiceName t1) = false →
  contains_sep (topic.ServiceID t1) = false →
  contains_sep (topic.ContentType t1) = false →
  contains_sep (topic.ServiceName t2) = false →
  contains_sep (topic.ServiceID t2) = false →
  contains_sep (topic.ContentType t2) = false →
  topic.getName t1
    = topic.ServiceName t1 +:+ "-" +:+ topic.ServiceID t1 +:+ "-" +:+ topic.ContentType t1
  ∧ (topic.getName t1 = topic.getName t2 ↔ t1 = t2).
Proof.
  intros Hn1 Hi1 _ Hn2 Hi2 _. split; [reflexivity|]. split.
  - destruct t1 as [n1 i1 c1], t2 as [n2 i2 c2]. unfold topic.getName. simpl in *.
    intros Heq.
    apply sep_split in Heq as [-> Heq]; [|assumption..].
    apply sep_split in Heq as [-> ->]; [|assumption..].
    reflexivity.
  - now intros ->.
Qed.

Lemma getName_injective_witness :
  topic.getName (topic.mk "honeybadger" "1" "bees") = "honeybadger-1-bees"
  ∧ (topic.getName (topic.mk "honeybadger" "1" "bees")
       = topic.getName (topic.mk "honeybadger" "1" "bees")
     ↔ topic.mk "honeybadger" "1" "bees" = topic.mk "honeybadger" "1" "bees").
Proof.
  apply (getName_injective (topic.mk "honeybadger" "1" "bees")
                           (topic.mk "honeybadger" "1" "bees"));
    reflexivity.
Defined.

(** Without the side condition the name does not determine the topic. *)
Example getName_ambiguous :
  topic.getName (topic.mk "a-b" "c" "d") = topic.getName (topic.mk "a" "b-c" "d").
Proof. reflexivity. Qed.

(** ** Messages *)

(** C1: the message [NewResponse(m, ct, payload)] builds carries [m]'s
    MessageID, the content type [ct], the payload [payload], and is
    addressed to [m]'s response topic. *)
Theorem NewResponse_fields (s : Service) (m : Message) (ct : string)
    (payload : bytes) (now : time) :
  MessageID (NewResponse s m ct payload now) = MessageID m
  ∧ ContentType (NewResponse s m ct payload now) = ct
  ∧ Payload (NewResponse s m ct payload now) = payload
  ∧ Topic (NewResponse s m ct payload now) = ResponseTopic m.
Proof. repeat split. Qed.

Lemma set_i_set_i (s : Service) (a b : Z) : set_i (set_i s a) b = set_i s b.
Proof. reflexivity. Qed.

Lemma set_i_same (s : Service) : set_i s (i s) = s.
Proof. now destruct s. Qed.

Lemma NewMessage_id (s : Service) (ct : string) (payload : bytes) (now : time) :
  MessageID (NewMessage s ct payload now).1 = Itoa (wrap_int (i s + 1))
  ∧ (NewMessage s ct payload now).2 = set_i s (wrap_int (i s + 1)).
Proof. split; reflexivity. Qed.

(** While the counter stays below [MaxInt], the [j]-th call returns the
    decimal form of [i + 1 + j] and leaves the counter one higher. *)
Lemma NewMessages_ids (calls : list (string * bytes * time)) (s : Service) :
  MinInt ≤ i s → i s + Z.of_nat (length calls) ≤ MaxInt →
  (∀ j m, (NewMessages s calls).1 !! j = Some m →
          MessageID m = Itoa (i s + 1 + Z.of_nat j))
  ∧ (NewMessages s calls).2 = set_i s (i s + Z.of_nat (length calls)).
Proof.
  revert s. induction calls as [|[[ct payload] now] rest IH]; intros s Hlo Hhi.
  - simpl. split; [intros j m Hj; now rewrite lookup_nil in Hj|].
    now rewrite Z.add_0_r, set_i_same.
  - cbn [length] in Hhi.
    assert (Hw : wrap_int (i s + 1) = i s + 1) by (apply wrap_int_in_range; lia).
    cbn [NewMessages].
    destruct (NewMessage_id s ct payload now) as [Hid Hs1].
    destruct (NewMessage s ct payload now) as [m1 s1]. simpl in Hid, Hs1.
    rewrite Hw in Hid, Hs1. subst s1.
    specialize (IH (set_i s (i s + 1))). cbn [i set_i] in IH.
    destruct IH as [IHids IHs]; [lia | lia |].
    destruct (NewMessages (set_i s (i s + 1)) rest) as [ms s2]. simpl in *.
    split.
    + intros [|j] m Hj; simpl in Hj.
      * inversion Hj; subst m. rewrite Hid. f_equal. lia.
      * rewrite (IHids j m Hj). f_equal. lia.
    + rewrite IHs. unfold set_i; simpl. f_equal. lia.
Qed.

(** C9, amended: on one service whose counter is not driven past [MaxInt]
    by the calls, a later call of [NewMessage] receives an id that denotes
    a larger integer than the id of an earlier call. *)
Theorem NewMessages_ids_increasing (s : Service)
    (calls : list (string * bytes * time)) (j k : nat) (mj mk : Message) :
  MinInt ≤ i s → i s + Z.of_nat (length calls) ≤ MaxInt →
  (j < k)%nat →
  (NewMessages s calls).1 !! j = Some mj →
  (NewMessages s calls).1 !! k = Some mk →
  ∃ a b, Atoi (MessageID mj) = Some a ∧ Atoi (MessageID mk) = Some b ∧ a < b.
Proof.
  intros Hlo Hhi Hjk Hj Hk.
  destruct (NewMessages_ids calls s Hlo Hhi) as [Hids _].
  exists (i s + 1 + Z.of_nat j), (i s + 1 + Z.of_nat k).
  rewrite (Hids j mj Hj), (Hids k mk Hk), !Atoi_Itoa.
  repeat split; lia.
Qed.

Lemma NewMessages_ids_increasing_witness :
  ∃ a b, Atoi "1" = Some a ∧ Atoi "2" = Some b ∧ a < b.
Proof.
  refine (NewMessages_ids_increasing honeybadger
            [("bees", [], 0); ("bees", [], 1)] 0 1
            (NewMessage honeybadger "bees" [] 0).1
            (NewMessage (NewMessage honeybadger "bees" [] 0).2 "bees" [] 1).1
            _ _ _ _ _).
  - vm_compute. discriminate.
  - vm_compute. discriminate.
  - lia.
  - reflexivity.
  - reflexivity.
Defined.

(** A fresh service reaches every counter value up to [MaxInt]. *)
Lemma NewMessages_reaches (n : nat) :
  Z.of_nat n ≤ MaxInt →
  (NewMessages honeybadger (replicate n ("bees", [], 0))).2
  = set_i honeybadger (Z.of_nat n).
Proof.
  intros Hn.
  destruct (NewMessages_ids (replicate n ("bees", [], 0)) honeybadger) as [_ Hs].
  - vm_compute. discriminate.
  - rewrite length_replicate. exact Hn.
  - rewrite Hs, length_replicate. reflexivity.
Qed.

(** C9 as stated fails at the end of the range of Go's [int]: a service
    that has made [MaxInt - 1] messages hands out [MaxInt] and then
    [MinInt], a smaller integer. *)
Lemma NewMessage_ids_wrap_around :
  (NewMessages honeybadger (replicate (Z.to_nat (MaxInt - 1)) ("bees", [], 0))).2
    = set_i honeybadger (MaxInt - 1)
  ∧ MessageID (NewMessage (set_i honeybadger (MaxInt - 1)) "bees" [] 0).1
    = "9223372036854775807"
  ∧ MessageID (NewMessage (NewMessage (set_i honeybadger (MaxInt - 1)) "bees" [] 0).2
                          "bees" [] 1).1
    = "-9223372036854775808"
  ∧ Atoi "9223372036854775807" = Some MaxInt
  ∧ Atoi "-9223372036854775808" = Some MinInt
  ∧ MinInt < MaxInt.
Proof.
  assert (Hpos : 0 ≤ MaxInt - 1) by (vm_compute; discriminate).
  split.
  - rewrite NewMessages_reaches; rewrite Z2Nat.id by exact Hpos.
    + reflexivity.
    + apply Z.le_sub_nonneg. lia.
  - repeat split; vm_compute; reflexivity.
Qed.

(** ** The actor loop *)

Lemma step_alive (st st' : ActorState) (ev : Event) :
  step st ev = Some st' → exited st = None.
Proof. unfold step. now destruct (exited st). Qed.

Lemma at_select_true (st : ActorState) : at_select st = true ↔ sending st = None.
Proof. unfold at_select. destruct (sending st); split; congruence. Qed.

(** C2: when the loop takes a message whose correlation id has no entry in
    the handler map, the message is dropped and nothing changes: the map is
    the same, no send to a handler is begun, no goroutine moves and the
    process does not exit. *)
Theorem dispatch_unknown_id_discarded (st : ActorState) (msg : Message) :
  exited st = None → sending st = None →
  handlers st !! MessageID msg = None →
  step st (CallHandler msg) = Some st
  ∧ ∀ st', step st (CallHandler msg) = Some st' →
           handlers st' = handlers st ∧ tasks st' = tasks st
           ∧ sending st' = None ∧ exited st' = None.
Proof.
  intros Hal Hsel Hno.
  assert (Hstep : step st (CallHandler msg) = Some st).
  { unfold step, at_select, call_case. now rewrite Hal, Hsel, Hno. }
  split; [exact Hstep|].
  intros st' Hst'. rewrite Hstep in Hst'. inversion Hst'; subst st'. auto.
Qed.

Lemma dispatch_unknown_id_discarded_witness :
  let st := add_case actor_init (handlerIDPair.mk reads_forever "7") in
  step st (CallHandler (response_with_id "8")) = Some st
  ∧ ∀ st', step st (CallHandler (response_with_id "8")) = Some st' →
           handlers st' = handlers st ∧ tasks st' = tasks st
           ∧ sending st' = None ∧ exited st' = None.
Proof.
  apply (dispatch_unknown_id_discarded
           (add_case actor_init (handlerIDPair.mk reads_forever "7"))
           (response_with_id "8")).
  - reflexivity.
  - reflexivity.
  - vm_compute. reflexivity.
Defined.

(** Replacing the goroutine of a channel by one of the same registration
    leaves the ids of the channels as they were. *)
Lemma chan_ids_update (st : ActorState) (c : nat) (t t' : Task) :
  tasks st !! c = Some t → task_pair t' = task_pair t →
  chan_ids (set_tasks st (<[c := t']> (tasks st))) = chan_ids st.
Proof.
  intros Hc Hp. unfold chan_ids. simpl.
  rewrite list_fmap_insert, Hp.
  apply list_insert_id. now rewrite list_lookup_fmap, Hc.
Qed.

Lemma tasks_update_lookup (ts : list Task) (c c0 : nat) (t t' t0 : Task) :
  ts !! c = Some t → <[c := t']> ts !! c0 = Some t0 →
  (c0 = c ∧ t0 = t') ∨ (c0 ≠ c ∧ ts !! c0 = Some t0).
Proof.
  intros Hc H0. destruct (decide (c0 = c)) as [->|Hne].
  - left. split; [reflexivity|].
    rewrite list_lookup_insert_eq in H0 by (eapply lookup_lt_Some; eauto).
    now inversion H0.
  - right. split; [assumption|].
    now rewrite list_lookup_insert_ne in H0 by congruence.
Qed.

Lemma routes_by_id_init : routes_by_id actor_init.
Proof.
  repeat split.
  - intros X c Hx. simpl in Hx. now rewrite lookup_empty in Hx.
  - intros c msg Hs. discriminate.
  - intros c t msg Ht. simpl in Ht. now rewrite lookup_nil in Ht.
Qed.

Lemma chan_ids_add (st : ActorState) (p : handlerIDPair.t) :
  chan_ids (add_case st p) = chan_ids st ++ [handlerIDPair.id p]
  ∧ length (chan_ids st) = length (tasks st).
Proof.
  unfold chan_ids, add_case. simpl. rewrite fmap_app, length_fmap. now split.
Qed.

Lemma routes_by_id_add (st : ActorState) (p : handlerIDPair.t) :
  sending st = None → routes_by_id st → routes_by_id (add_case st p).
Proof.
  intros Hsel (Hmap & Hsend & Hrecv).
  destruct (chan_ids_add st p) as [Hids Hlen].
  repeat split.
  - intros X c Hx. rewrite Hids. simpl in Hx.
    destruct (decide (handlerIDPair.id p = X)) as [<-|Hne].
    + rewrite lookup_insert_eq in Hx. inversion Hx; subst c.
      rewrite lookup_app_r by lia.
      now rewrite Hlen, Nat.sub_diag.
    + rewrite lookup_insert_ne in Hx by assumption.
      apply lookup_app_l_Some. now apply Hmap.
  - intros c msg Hs. simpl in Hs. congruence.
  - intros c t msg Ht Hin. simpl in Ht.
    apply lookup_app_Some in Ht as [Ht | [_ Ht]].
    + now apply (Hrecv c).
    + apply list_lookup_singleton_Some in Ht as [_ <-]. simpl in Hin.
      now apply elem_of_nil in Hin.
Qed.

Lemma routes_by_id_remove (st : ActorState) (c : nat) (t : Task) :
  tasks st !! c = Some t → routes_by_id st → routes_by_id (remove_case st c t).
Proof.
  intros Hc (Hmap & Hsend & Hrecv). unfold remove_case.
  pose proof (chan_ids_update
                (set_handlers st (delete (handlerIDPair.id (task_pair t)) (handlers st)))
                c t (mkTask (task_pair t) (task_received t) Finished) Hc eq_refl) as Hids.
  repeat split.
  - intros X c0 Hx. simpl in Hids, Hx. rewrite Hids.
    apply lookup_delete_Some in Hx as [_ Hx]. now apply Hmap.
  - intros c0 msg Hs. simpl in Hids. rewrite Hids. now apply Hsend.
  - intros c0 t0 msg Ht Hin. simpl in Ht.
    destruct (tasks_update_lookup _ _ _ _ _ _ Hc Ht) as [[-> ->] | [_ Hold]].
    + simpl in *. now apply (Hrecv c t).
    + now apply (Hrecv c0).
Qed.

Lemma routes_by_id_call (st : ActorState) (msg : Message) :
  sending st = None → routes_by_id st → routes_by_id (call_case st msg).
Proof.
  intros Hsel Hinv. unfold call_case.
  destruct (handlers st !! MessageID msg) as [c|] eqn:Hc; [|assumption].
  destruct Hinv as (Hmap & Hsend & Hrecv). repeat split; try assumption.
  intros c0 m0 Hs. simpl in Hs. inversion Hs; subst c0 m0.
  now apply Hmap.
Qed.

Lemma routes_by_id_handler (st st' : ActorState) (c : nat) (t : Task) :
  tasks st !! c = Some t → handler_case st c t = Some st' →
  routes_by_id st → routes_by_id st'.
Proof.
  intros Hc Hstep (Hmap & Hsend & Hrecv). unfold handler_case in Hstep.
  destruct (handlerIDPair.h (task_pair t) (task_received t)) as [[e|]|].
  - inversion Hstep; subst st'. repeat split; assumption.
  - inversion Hstep; subst st'.
    pose proof (chan_ids_update st c t
                  (mkTask (task_pair t) (task_received t) SendingRemove) Hc eq_refl) as Hids.
    repeat split.
    + intros X c0 Hx. rewrite Hids. now apply Hmap.
    + intros c0 msg Hs. rewrite Hids. now apply Hsend.
    + intros c0 t0 msg Ht Hin. simpl in Ht.
      destruct (tasks_update_lookup _ _ _ _ _ _ Hc Ht) as [[-> ->] | [_ Hold]].
      * simpl in *. now apply (Hrecv c t).
      * now apply (Hrecv c0).
  - destruct (sending st) as [[c' msg]|] eqn:Hs; [|discriminate].
    destruct (decide (c' = c)) as [->|]; [|discriminate].
    inversion Hstep; subst st'.
    pose proof (chan_ids_update st c t
                  (mkTask (task_pair t) (task_received t ++ [msg]) InHandler) Hc eq_refl)
      as Hids.
    repeat split.
    + intros X c0 Hx. unfold chan_ids in *. simpl in *. rewrite Hids. now apply Hmap.
    + intros c0 m0 Hs0. discriminate.
    + intros c0 t0 m0 Ht Hin. simpl in Ht.
      destruct (tasks_update_lookup _ _ _ _ _ _ Hc Ht) as [[-> ->] | [_ Hold]].
      * simpl in *. apply elem_of_app in Hin as [Hin | Hin].
        -- now apply (Hrecv c t).
        -- apply list_elem_of_singleton in Hin. subst m0.
           specialize (Hsend c msg eq_refl). unfold chan_ids in Hsend.
           rewrite list_lookup_fmap, Hc in Hsend. simpl in Hsend.
           now inversion Hsend.
      * now apply (Hrecv c0).
Qed.

Lemma routes_by_id_step (st st' : ActorState) (ev : Event) :
  step st ev = Some st' → routes_by_id st → routes_by_id st'.
Proof.
  unfold step. destruct (exited st); [discriminate|].
  destruct ev as [p | c | msg | c].
  - destruct (at_select st) eqn:Hsel; [|discriminate].
    intros [= <-]. apply routes_by_id_add. now apply at_select_true.
  - destruct (at_select st); [|discriminate].
    destruct (tasks st !! c) as [t|] eqn:Hc; [|discriminate].
    destruct (task_state t); try discriminate.
    intros [= <-]. now apply routes_by_id_remove.
  - destruct (at_select st) eqn:Hsel; [|discriminate].
    intros [= <-]. apply routes_by_id_call. now apply at_select_true.
  - destruct (tasks st !! c) as [t|] eqn:Hc; [|discriminate].
    destruct (task_state t); try discriminate.
    intros Hstep. now apply (routes_by_id_handler st st' c t).
Qed.

Lemma routes_by_id_exec (evs : list Event) (st st' : ActorState) :
  exec st evs = Some st' → routes_by_id st → routes_by_id st'.
Proof.
  revert st. induction evs as [|ev evs IH]; intros st; simpl.
  - now intros [= <-].
  - destruct (step st ev) as [st1|] eqn:Hstep; [|discriminate].
    intros Hrun Hinv. apply (IH st1 Hrun). now apply (routes_by_id_step st st1 ev).
Qed.

(** C3: in every state the service reaches, the handler registered under
    the correlation id [X], whose goroutine reads channel [c], has read
    only messages of id [X], and a dispatch begins a send on [c] only for a
    message whose id is [X]. *)
Theorem dispatch_respects_correlation_id (evs : list Event) (st : ActorState)
    (c : nat) (t : Task) (X : messageID) (msg : Message) :
  exec actor_init evs = Some st →
  tasks st !! c = Some t →
  handlerIDPair.id (task_pair t) = X →
  (msg ∈ task_received t → MessageID msg = X)
  ∧ (∀ st', step st (CallHandler msg) = Some st' →
            sending st' = Some (c, msg) → MessageID msg = X).
Proof.
  intros Hrun Hc HX.
  pose proof (routes_by_id_exec evs actor_init st Hrun routes_by_id_init) as Hinv.
  split.
  - intros Hin. destruct Hinv as (_ & _ & Hrecv). rewrite <- HX. now apply (Hrecv c).
  - intros st' Hstep Hs.
    pose proof (routes_by_id_step st st' _ Hstep Hinv) as (_ & Hsend & _).
    specialize (Hsend c msg Hs).
    assert (Htasks : tasks st' = tasks st).
    { unfold step in Hstep. destruct (exited st); [discriminate|].
      destruct (at_select st); [|discriminate].
      inversion Hstep. unfold call_case.
      now destruct (handlers st !! MessageID msg). }
    unfold chan_ids in Hsend. rewrite Htasks, list_lookup_fmap, Hc in Hsend.
    simpl in Hsend. inversion Hsend. congruence.
Qed.

Lemma dispatch_respects_correlation_id_witness :
  (response_with_id "7" ∈ [response_with_id "7"] → MessageID (response_with_id "7") = "7")
  ∧ (∀ st',
       step {| handlers := {["7" := 0%nat]};
               tasks := [mkTask (handlerIDPair.mk reads_forever "7")
                                [response_with_id "7"] InHandler];
               sending := None; exited := None |}
            (CallHandler (response_with_id "7")) = Some st' →
       sending st' = Some (0%nat, response_with_id "7") →
       MessageID (response_with_id "7") = "7").
Proof.
  apply (dispatch_respects_correlation_id
           [AddHandler (handlerIDPair.mk reads_forever "7");
            CallHandler (response_with_id "7");
            HandlerRuns 0]
           {| handlers := {["7" := 0%nat]};
              tasks := [mkTask (handlerIDPair.mk reads_forever "7")
                               [response_with_id "7"] InHandler];
              sending := None; exited := None |}
           0%nat
           (mkTask (handlerIDPair.mk reads_forever "7") [response_with_id "7"] InHandler)
           "7" (response_with_id "7")).
  - vm_compute. reflexivity.
  - reflexivity.
  - reflexivity.
Defined.

(** A message of another id passes the registered handler by. *)
Example other_id_not_delivered :
  exec actor_init [AddHandler (handlerIDPair.mk reads_forever "7");
                   CallHandler (response_with_id "8")]
  = Some (add_case actor_init (handlerIDPair.mk reads_forever "7")).
Proof. vm_compute. reflexivity. Qed.

(** C4, amended: when the handler of a registration returns nil, its
    goroutine offers the registration on the remove channel, and the loop,
    taking it at its [select], deletes the correlation id from the handler
    map; when the handler returns an error the process exits in
    [log.Fatal], the map is left as it was and nothing happens after. *)
Theorem handler_return_deregisters_or_exits (st : ActorState) (c : nat) (t : Task) :
  exited st = None →
  tasks st !! c = Some t →
  task_state t = InHandler →
  match handlerIDPair.h (task_pair t) (task_received t) with
  | Some None =>
      ∃ st1, step st (HandlerRuns c) = Some st1
             ∧ handlers st1 = handlers st
             ∧ sending st1 = sending st
             ∧ (sending st1 = None →
                ∃ st2, step st1 (RemoveHandler c) = Some st2
                       ∧ handlers st2 = delete (handlerIDPair.id (task_pair t)) (handlers st)
                       ∧ handlers st2 !! handlerIDPair.id (task_pair t) = None)
  | Some (Some e) =>
      ∃ st1, step st (HandlerRuns c) = Some st1
             ∧ exited st1 = Some e
             ∧ handlers st1 = handlers st
             ∧ ∀ ev, step st1 ev = None
  | None => True
  end.
Proof.
  intros Hal Hc Hstate.
  destruct (handlerIDPair.h (task_pair t) (task_received t)) as [[e|]|] eqn:Hh;
    [| |exact I].
  - exists (set_exited st e). repeat split.
    unfold step, handler_case. now rewrite Hal, Hc, Hstate, Hh.
  - eexists. split.
    { unfold step, handler_case. rewrite Hal, Hc, Hstate, Hh. reflexivity. }
    repeat split. simpl. intros Hsel.
    eexists. split.
    { unfold step, at_select. simpl. rewrite Hal, Hsel.
      rewrite list_lookup_insert_eq by (eapply lookup_lt_Some; eauto).
      simpl. reflexivity. }
    simpl. split; [reflexivity|]. apply lookup_delete_eq.
Qed.

Lemma handler_return_deregisters_or_exits_witness :
  ∃ st1, step (add_case actor_init (handlerIDPair.mk returns_nil "1")) (HandlerRuns 0)
         = Some st1
         ∧ handlers st1 = handlers (add_case actor_init (handlerIDPair.mk returns_nil "1"))
         ∧ sending st1 = sending (add_case actor_init (handlerIDPair.mk returns_nil "1"))
         ∧ (sending st1 = None →
            ∃ st2, step st1 (RemoveHandler 0) = Some st2
                   ∧ handlers st2
                     = delete "1" (handlers (add_case actor_init
                                               (handlerIDPair.mk returns_nil "1")))
                   ∧ handlers st2 !! "1" = None).
Proof.
  apply (handler_return_deregisters_or_exits
           (add_case actor_init (handlerIDPair.mk returns_nil "1")) 0%nat
           (mkTask (handlerIDPair.mk returns_nil "1") [] InHandler));
    reflexivity.
Defined.

(** C4 as stated fails for the error outcome: the handler registered under
    "1" returns an error, the process exits with its id still in the map,
    and no step of the loop follows. *)
Lemma failed_handler_stays_registered :
  exec actor_init [AddHandler (handlerIDPair.mk returns_boom "1"); HandlerRuns 0]
  = Some after_boom
  ∧ handlers after_boom !! "1" = Some 0%nat
  ∧ exited after_boom = Some "boom"
  ∧ ∀ ev, step after_boom ev = None.
Proof.
  split; [vm_compute; reflexivity|].
  split; [vm_compute; reflexivity|].
  split; [reflexivity|].
  intros ev. reflexivity.
Qed.

(** A handler that returns nil while the loop is blocked sending to it:
    the goroutine waits on the remove channel, the loop on the handler's
    channel, the id stays in the map and no event can happen any more. *)
Example return_during_dispatch_blocks :
  ∃ st, exec actor_init [AddHandler (handlerIDPair.mk returns_nil "1");
                         CallHandler (response_with_id "1");
                         HandlerRuns 0] = Some st
        ∧ handlers st !! "1" = Some 0%nat
        ∧ ∀ ev, step st ev = None.
Proof.
  eexists. split; [vm_compute; reflexivity|].
  split; [vm_compute; reflexivity|].
  intros [p | c | msg | c]; try reflexivity.
  destruct c as [|c]; [reflexivity|]. destruct c; reflexivity.
Qed.

(** ** The public operations *)

Section OperationProperties.
Context `{Env} `{Receivers}.

(** C5: in every world, [Request(m, h)] with a handler first sends the
    registration of [h] under [m]'s MessageID to the actor, whose add case
    stores a channel under that id, and only when the actor has taken it
    goes on to do what [Emit(m)] does (it publishes nothing while it waits
    in the send); [Emit(m)] hands over no registration: it publishes the
    encoded message on the name of [m]'s topic, or exits in [log.Fatal]
    when the message does not encode. *)
Theorem Request_registers_before_publishing (s : Service) (m : Message) (h : Handler)
    (w : World) :
  Request s m (Some h) w
  = (if taken w (SendAddHandler (handlerIDPair.mk h (MessageID m)))
     then Emit s m {| effects := effects w
                        ++ [SendAddHandler (handlerIDPair.mk h (MessageID m))];
                      next_chan := next_chan w |}
     else (w, Hang))
  ∧ (∀ st, handlers (add_case st (handlerIDPair.mk h (MessageID m))) !! MessageID m
           = Some (length (tasks st)))
  ∧ Emit s m w
    = match json_Marshal m with
      | inr out => ({| effects := effects w ++ [Publish (topic.getName (Topic m)) out];
                       next_chan := next_chan w |}, Ret None)
      | inl err => (w, Fatal err)
      end
  ∧ registered (effects (Emit s m w).1) = registered (effects w).
Proof.
  assert (Hemit : ∀ w0, Emit s m w0
            = match json_Marshal m with
              | inr out => ({| effects := effects w0
                                 ++ [Publish (topic.getName (Topic m)) out];
                               next_chan := next_chan w0 |}, Ret None)
              | inl err => (w0, Fatal err)
              end).
  { intros w0. unfold Emit, produce, publish, perform, log_Fatal, mbind, M_bind, mret, M_ret.
    now destruct (json_Marshal m). }
  split; [|split; [|split]].
  - rewrite Hemit.
    unfold Request, produce, send, publish, perform, log_Fatal, mbind, M_bind, mret, M_ret.
    destruct (taken w _); [|reflexivity]. now destruct (json_Marshal m).
  - intros st. apply lookup_insert_eq.
  - apply Hemit.
  - rewrite Hemit. destruct (json_Marshal m); [reflexivity|].
    unfold registered. simpl. rewrite omap_app. simpl. now rewrite app_nil_r.
Qed.

(** A body that does not decode as a Message makes the handler of the
    response topic return the decoding error to go-nsq: nothing is sent to
    the actor and the process goes on. The handler of the consumer streams
    exits on the same body. *)
Lemma HandleMessage_returns_decode_error (s : Service) (c : nat) (body : bytes)
    (err : error) (w : World) :
  json_Unmarshal_Message body = inl err →
  HandleMessage s body w = (w, Ret (Some err))
  ∧ queueConsumer_HandleMessage c body w = (w, Fatal err).
Proof.
  intros Hdec. unfold HandleMessage, queueConsumer_HandleMessage, log_Fatal, mret, M_ret.
  now rewrite Hdec.
Qed.

(** A body that decodes is sent on: to the actor by the handler of the
    response topic, to the consumer's channel by the other one; each
    returns nil once its send is taken and waits in it until then. *)
Lemma HandleMessage_forwards (s : Service) (c : nat) (body : bytes) (out : Message)
    (w : World) :
  json_Unmarshal_Message body = inr out →
  HandleMessage s body w
  = (if taken w (SendCallHandler out)
     then ({| effects := effects w ++ [SendCallHandler out];
              next_chan := next_chan w |}, Ret None)
     else (w, Hang))
  ∧ queueConsumer_HandleMessage c body w
    = (if taken w (SendChan c out)
       then ({| effects := effects w ++ [SendChan c out];
                next_chan := next_chan w |}, Ret None)
       else (w, Hang)).
Proof.
  intros Hdec.
  unfold HandleMessage, queueConsumer_HandleMessage, send, perform, mbind, M_bind, mret, M_ret.
  rewrite Hdec. split; now destruct (taken w _).
Qed.

End OperationProperties.

(** While the actor does not take the registration, [Request] waits in
    its send: nothing is registered and nothing is published. *)
Example Request_waits_for_actor :
  @Request demo_env never_taken honeybadger (response_with_id "1")
           (Some reads_forever) world0
  = (world0, Hang).
Proof. reflexivity. Qed.

(** C7: the claim says the response router aborts on a body that does not
    decode, as [queueConsumer.HandleMessage] does; [Service.HandleMessage]
    does not. On the empty body, which is no JSON text, it returns the
    error to go-nsq and the process goes on, in a world it has not
    touched, while the handler of the consumer streams exits. *)
Theorem HandleMessage_does_not_abort :
  @json_Unmarshal_Message demo_env [] = inl "unexpected end of JSON input"
  ∧ @HandleMessage demo_env always_taken honeybadger [] world0
    = (world0, Ret (Some "unexpected end of JSON input"))
  ∧ (@HandleMessage demo_env always_taken honeybadger [] world0).2
    ≠ Fatal "unexpected end of JSON input"
  ∧ @queueConsumer_HandleMessage demo_env always_taken 0 [] world0
    = (world0, Fatal "unexpected end of JSON input").
Proof. repeat split. discriminate. Qed.

(** ** Discovery: the snapshot lookup of [Consume] *)

Lemma select_topics_acc (ct : string) (topics acc : list string) :
  fold_left (λ out topic, if HasSuffix topic ct then out ++ [topic] else out) topics acc
  = acc ++ List.filter (λ name, HasSuffix name ct) topics.
Proof.
  revert acc. induction topics as [|name topics IH]; intros acc; simpl.
  - now rewrite app_nil_r.
  - rewrite IH. destruct (HasSuffix name ct); [|reflexivity].
    now rewrite <- app_assoc.
Qed.

(** The loop of [lookupTopics] keeps the names that end in the content
    type, in the order of the registry. *)
Lemma select_topics_filter (ct : string) (topics : list string) :
  select_topics ct topics = List.filter (λ name, HasSuffix name ct) topics.
Proof. unfold select_topics. now rewrite select_topics_acc. Qed.

Lemma select_topics_elem (ct : string) (topics : list string) (name : string) :
  name ∈ select_topics ct topics ↔ name ∈ topics ∧ ∃ p, name = p +:+ ct.
Proof.
  rewrite select_topics_filter, !list_elem_of_In, filter_In, HasSuffix_spec.
  reflexivity.
Qed.

Lemma subscribed_app (l1 l2 : list Effect) :
  subscribed (l1 ++ l2) = subscribed l1 ++ subscribed l2.
Proof. apply omap_app. Qed.

Lemma subscribed_subscribe (l : list string) (channel : string) (sink : Sink) :
  subscribed ((λ name, Subscribe name channel sink) <$> l) = l.
Proof.
  induction l as [|a l IH]; [reflexivity|].
  change (a :: subscribed ((λ name, Subscribe name channel sink) <$> l) = a :: l).
  now rewrite IH.
Qed.

Section DiscoveryProperties.
Context `{Env}.

(** The loop of [newConsumer] opens one subscription per topic, in order,
    unless go-nsq refuses one of them, which ends the process. *)
Lemma subscribe_each_spec (topics : list string) (channel : string) (inbound : nat)
    (w : World) :
  match subscribe_each topics channel inbound w with
  | (w', Ret _) =>
      effects w' = effects w ++ ((λ name, Subscribe name channel (ToChan inbound)) <$> topics)
      ∧ next_chan w' = next_chan w
  | (_, Fatal e) => ∃ name, name ∈ topics ∧ nsq_NewConsumer name channel = Some e
  | (_, Hang) => False
  end.
Proof.
  revert w. induction topics as [|name topics IH]; intros w.
  - simpl. unfold mret, M_ret. now rewrite app_nil_r.
  - cbn [subscribe_each]. unfold mbind, M_bind, subscribe.
    destruct (nsq_NewConsumer name channel) as [e|] eqn:Hnew.
    + unfold log_Fatal. exists name. split; [apply list_elem_of_here | assumption].
    + unfold perform.
      specialize (IH {| effects := effects w ++ [Subscribe name channel (ToChan inbound)];
                        next_chan := next_chan w |}).
      destruct (subscribe_each topics channel inbound _) as [w' [[]|e|]]; simpl in *.
      * destruct IH as [-> ->]. now rewrite <- app_assoc.
      * destruct IH as (name' & Hin & Hne). exists name'.
        split; [now apply list_elem_of_further | assumption].
      * assumption.
Qed.

(** C8: when lookupd answers with a list of topic names, [lookupTopics]
    returns the names of that list that end in the content type, those and
    no others, and [newConsumer] opens a subscription on each of them, on
    the channel [Name-ID], feeding the consumer's channel; the only other
    way out is the exit in [log.Fatal] when go-nsq refuses one of these
    subscriptions. *)
Theorem lookupTopics_selects_suffix (s : Service) (ct : string) (body : bytes)
    (t : lookupdTopic.t) (w : World) :
  http_Get ("http://" +:+ nsqLookupdHTTPAddr s +:+ "/topics") = inr body →
  json_Unmarshal_lookupdTopic body = inr t →
  (lookupTopics s ct w).2
    = Ret (List.filter (λ name, HasSuffix name ct)
                       (lookupdTopics.Topics (lookupdTopic.Data t)))
  ∧ (∀ name, name ∈ List.filter (λ name, HasSuffix name ct)
                                 (lookupdTopics.Topics (lookupdTopic.Data t))
             ↔ name ∈ lookupdTopics.Topics (lookupdTopic.Data t) ∧ ∃ p, name = p +:+ ct)
  ∧ match newConsumer s ct w with
    | (w', Ret c) =>
        subscribed (effects w')
        = subscribed (effects w)
          ++ List.filter (λ name, HasSuffix name ct)
                         (lookupdTopics.Topics (lookupdTopic.Data t))
        ∧ effects w'
          = effects w
            ++ [HttpGet ("http://" +:+ nsqLookupdHTTPAddr s +:+ "/topics")]
            ++ ((λ name, Subscribe name (Name s +:+ "-" +:+ ID s) (ToChan (next_chan w)))
                  <$> List.filter (λ name, HasSuffix name ct)
                                  (lookupdTopics.Topics (lookupdTopic.Data t)))
            ++ [GoWatchForContentType ct (next_chan w)]
        ∧ c = consumer.mk (next_chan w) ct
    | (_, Fatal e) =>
        ∃ name, name ∈ List.filter (λ name, HasSuffix name ct)
                                   (lookupdTopics.Topics (lookupdTopic.Data t))
                ∧ nsq_NewConsumer name (Name s +:+ "-" +:+ ID s) = Some e
    | (_, Hang) => False
    end.
Proof.
  intros Hget Hjson.
  set (topics := lookupdTopics.Topics (lookupdTopic.Data t)).
  assert (Hlook : ∀ w0, lookupTopics s ct w0
                        = ({| effects := effects w0
                                ++ [HttpGet ("http://" +:+ nsqLookupdHTTPAddr s +:+ "/topics")];
                              next_chan := next_chan w0 |},
                           Ret (List.filter (λ name, HasSuffix name ct) topics))).
  { intros w0. unfold lookupTopics, http_get, perform, mbind, M_bind, mret, M_ret.
    rewrite Hget, Hjson, select_topics_filter. reflexivity. }
  split; [now rewrite Hlook|].
  split.
  { intros name. rewrite <- select_topics_filter. apply select_topics_elem. }
  unfold newConsumer, make_chan. unfold mbind at 1, M_bind at 1.
  unfold mbind at 1, M_bind at 1. rewrite Hlook.
  unfold mbind at 1, M_bind at 1.
  match goal with
  | |- context [subscribe_each ?ts ?ch ?c ?w0] =>
      pose proof (subscribe_each_spec ts ch c w0) as Hsub;
      destruct (subscribe_each ts ch c w0) as [w1 [[]|e|]]
  end; simpl in *.
  - destruct Hsub as [Heff Hchan].
    unfold mbind, M_bind, perform, mret, M_ret. simpl.
    rewrite Heff. split; [|split; [|reflexivity]].
    + rewrite !subscribed_app, subscribed_subscribe. simpl.
      now rewrite !app_nil_r.
    + now rewrite <- !app_assoc.
  - exact Hsub.
  - exact Hsub.
Qed.

End DiscoveryProperties.

Lemma lookupTopics_selects_suffix_witness :
  (@lookupTopics demo_env honeybadger "bees" world0).2
  = Ret ["honeybadger-1-bees"; "hive-3-bees"]
  ∧ subscribed (effects (@newConsumer demo_env honeybadger "bees" world0).1)
    = ["honeybadger-1-bees"; "hive-3-bees"].
Proof.
  destruct (@lookupTopics_selects_suffix demo_env honeybadger "bees" []
              (lookupdTopic.mk 200 "OK" (lookupdTopics.mk demo_topics)) world0
              eq_refl eq_refl) as (Hsel & _ & Hsub).
  split; [exact Hsel | vm_compute; reflexivity].
Defined.

(** ** What the public operations return *)

Section ReturnValues.
Context `{Env} `{Receivers}.

Lemma bind_returns_no_error {A} (m : M A) (f : A → M (option error)) (w : World) :
  (∀ a w', returns_no_error (f a w').2) → returns_no_error ((m ≫= f) w).2.
Proof.
  intros Hf. unfold mbind, M_bind.
  destruct (m w) as [w' [a|e|]]; simpl; [apply Hf | exact I | exact I].
Qed.

Lemma ret_None_returns_no_error (w : World) :
  returns_no_error ((mret None : M (option error)) w).2.
Proof. reflexivity. Qed.

(** [Consume] is [newConsumer] and then the handler: it returns nil when
    the handler returns, whatever the handler returns, and stays in the
    handler as long as the handler does. *)
Lemma Consume_outcome (s : Service) (ct : string) (h : Handler) (w : World) :
  Consume s ct h w
  = match newConsumer s ct w with
    | (w', Ret c) =>
        (w', match run_handler h [] (chan_traffic (consumer.C c)) with
             | Ret _ => Ret None
             | Fatal e => Fatal e
             | Hang => Hang
             end)
    | (w', Fatal e) => (w', Fatal e)
    | (w', Hang) => (w', Hang)
    end.
Proof.
  unfold Consume. unfold mbind at 1, M_bind at 1.
  destruct (newConsumer s ct w) as [w' [c|e|]]; try reflexivity.
  unfold call_handler, mbind, M_bind, mret, M_ret.
  now destruct (run_handler h [] (chan_traffic (consumer.C c))).
Qed.

(** C10, amended: in every world and whatever the broker, the HTTP client,
    the JSON codec and the handler do, none of [Emit], [Request],
    [Announce] and [Consume] hands an error back, and each returns nil in
    the cases given here. [Emit] returns nil when the message encodes and
    exits otherwise. [Request] does as [Emit] once the actor has taken the
    registration, and waits in the send until then. [Announce] returns nil
    when the announcement encodes and the HTTP request to nsqd is answered,
    and exits otherwise. [Consume], once [newConsumer] has returned, returns
    nil when its handler returns and does not return while the handler has
    not. The results of [Publish], of [createTopic] in [Announce] and of the
    handler appear nowhere in these outcomes. *)
Theorem public_operations_return_nil (s : Service) (m : Message)
    (h : option Handler) (h' : Handler) (ct : string) (now : time) (w : World) :
  (Emit s m w).2
  = match json_Marshal m with
    | inr _ => Ret None
    | inl err => Fatal err
    end
  ∧ (Request s m h w).2
    = match h with
      | Some f =>
          if taken w (SendAddHandler (handlerIDPair.mk f (MessageID m)))
          then match json_Marshal m with
               | inr _ => Ret None
               | inl err => Fatal err
               end
          else Hang
      | None =>
          match json_Marshal m with
          | inr _ => Ret None
          | inl err => Fatal err
          end
      end
  ∧ (Announce s ct now w).2
    = match json_Marshal (announcement s ct now) with
      | inl err => Fatal err
      | inr _ =>
          match http_Get ("http://" +:+ nsqdHTTPAddr s +:+ "/create_topic?topic="
                          +:+ topic.getName (topic.mk (Name s) (ID s) ct)) with
          | inl err => Fatal err
          | inr _ => Ret None
          end
      end
  ∧ Consume s ct h' w
    = match newConsumer s ct w with
      | (w', Ret c) =>
          (w', match run_handler h' [] (chan_traffic (consumer.C c)) with
               | Ret _ => Ret None
               | Fatal e => Fatal e
               | Hang => Hang
               end)
      | (w', Fatal e) => (w', Fatal e)
      | (w', Hang) => (w', Hang)
      end
  ∧ returns_no_error (Emit s m w).2
  ∧ returns_no_error (Request s m h w).2
  ∧ returns_no_error (Announce s ct now w).2
  ∧ returns_no_error (Consume s ct h' w).2.
Proof.
  assert (Hemit : (Emit s m w).2
                  = match json_Marshal m with
                    | inr _ => Ret None
                    | inl err => Fatal err
                    end).
  { unfold Emit, produce, publish, perform, log_Fatal, mbind, M_bind, mret, M_ret.
    now destruct (json_Marshal m). }
  assert (Hreq : (Request s m h w).2
                 = match h with
                   | Some f =>
                       if taken w (SendAddHandler (handlerIDPair.mk f (MessageID m)))
                       then match json_Marshal m with
                            | inr _ => Ret None
                            | inl err => Fatal err
                            end
                       else Hang
                   | None =>
                       match json_Marshal m with
                       | inr _ => Ret None
                       | inl err => Fatal err
                       end
                   end).
  { destruct h as [f|]; [|exact Hemit].
    unfold Request, produce, send, publish, perform, log_Fatal, mbind, M_bind, mret, M_ret.
    destruct (taken w _); [|reflexivity]. now destruct (json_Marshal m). }
  assert (Hann : (Announce s ct now w).2
                 = match json_Marshal (announcement s ct now) with
                   | inl err => Fatal err
                   | inr _ =>
                       match http_Get ("http://" +:+ nsqdHTTPAddr s
                                       +:+ "/create_topic?topic="
                                       +:+ topic.getName (topic.mk (Name s) (ID s) ct)) with
                       | inl err => Fatal err
                       | inr _ => Ret None
                       end
                   end).
  { unfold Announce.
    change (mkMessage (Name s) [] now ct "" (topic.mk (Name s) (ID s) ct)
              (topic.mk "" "" "")) with (announcement s ct now).
    destruct (json_Marshal (announcement s ct now)) as [err|out]; [reflexivity|].
    unfold createTopic, http_get, publish, perform, log_Fatal, mbind, M_bind, mret, M_ret.
    destruct (http_Get _) as [err|body]; [reflexivity|].
    now destruct (decide _). }
  pose proof (Consume_outcome s ct h' w) as Hcon.
  repeat (split; [assumption|]).
  split; [|split; [|split]].
  - rewrite Hemit. now destruct (json_Marshal m).
  - rewrite Hreq. destruct h as [f|]; [destruct (taken w _)|];
      try exact I; now destruct (json_Marshal m).
  - rewrite Hann. destruct (json_Marshal (announcement s ct now)); [exact I|].
    now destruct (http_Get _).
  - rewrite Hcon. destruct (newConsumer s ct w) as [w' [c|e|]]; try exact I.
    simpl. now destruct (run_handler h' [] (chan_traffic (consumer.C c))).
Qed.

End ReturnValues.

(** C10 as stated fails: with a handler that reads its channel for ever,
    as the handler of the honeybadger example does, [Consume] opens its
    subscriptions and then never returns, nil or otherwise. *)
Lemma Consume_with_reading_handler_never_returns :
  (@newConsumer demo_env honeybadger "bees" world0).2 = Ret (consumer.mk 0 "bees")
  ∧ (@Consume demo_env honeybadger "bees" reads_forever world0).2 = Hang
  ∧ (@Consume demo_env honeybadger "bees" reads_forever world0).2 ≠ Ret None.
Proof. repeat split. discriminate. Qed.

(** A failed publish, a refused [create_topic] and a handler's error are
    all dropped: the operations still return nil. *)
Example failures_are_dropped :
  (@Emit failing_env always_taken honeybadger (response_with_id "1") world0).2 = Ret None
  ∧ (@Request failing_env always_taken honeybadger (response_with_id "1")
       (Some returns_boom) world0).2
    = Ret None
  ∧ (@Announce failing_env honeybadger "bees" 0 world0).2 = Ret None
  ∧ (@Consume failing_env honeybadger "bees" returns_boom world0).2 = Ret None.
Proof. repeat split. Qed.

(** * Further properties *)

(** ** Runs of the actor loop *)

Lemma exec_app (st : ActorState) (evs1 evs2 : list Event) :
  exec st (evs1 ++ evs2) = exec st evs1 ≫= λ st1, exec st1 evs2.
Proof.
  revert st. induction evs1 as [|ev evs1 IH]; intros st; simpl; [reflexivity|].
  destruct (step st ev); [apply IH | reflexivity].
Qed.

Lemma step_call_inv (st st' : ActorState) (msg : Message) :
  step st (CallHandler msg) = Some st' →
  exited st = None ∧ sending st = None ∧ st' = call_case st msg.
Proof.
  unfold step. destruct (exited st); [discriminate|].
  destruct (at_select st) eqn:Hsel; [|discriminate].
  intros [= <-]. repeat split. now apply at_select_true.
Qed.

Lemma step_add_inv (st st' : ActorState) (p : handlerIDPair.t) :
  step st (AddHandler p) = Some st' →
  exited st = None ∧ sending st = None ∧ st' = add_case st p.
Proof.
  unfold step. destruct (exited st); [discriminate|].
  destruct (at_select st) eqn:Hsel; [|discriminate].
  intros [= <-]. repeat split. now apply at_select_true.
Qed.

Lemma step_remove_inv (st st' : ActorState) (c : nat) :
  step st (RemoveHandler c) = Some st' →
  exited st = None ∧ sending st = None
  ∧ ∃ t, tasks st !! c = Some t ∧ task_state t = SendingRemove
         ∧ st' = remove_case st c t.
Proof.
  unfold step. destruct (exited st); [discriminate|].
  destruct (at_select st) eqn:Hsel; [|discriminate].
  destruct (tasks st !! c) as [t|]; [|discriminate].
  destruct (task_state t) eqn:Hst; try discriminate.
  intros [= <-]. split; [reflexivity|]. split; [now apply at_select_true|].
  now exists t.
Qed.

Lemma step_handler_inv (st st' : ActorState) (c : nat) :
  step st (HandlerRuns c) = Some st' →
  exited st = None
  ∧ ∃ t, tasks st !! c = Some t ∧ task_state t = InHandler
         ∧ handler_case st c t = Some st'.
Proof.
  unfold step. destruct (exited st); [discriminate|].
  destruct (tasks st !! c) as [t|]; [|discriminate].
  destruct (task_state t) eqn:Hst; try discriminate.
  intros Hh. split; [reflexivity|]. now exists t.
Qed.

(** The three ways a goroutine inside its handler moves. *)
Lemma handler_case_inv (st st' : ActorState) (c : nat) (t : Task) :
  handler_case st c t = Some st' →
  (∃ e, st' = set_exited st e)
  ∨ st' = set_tasks st (<[c := mkTask (task_pair t) (task_received t) SendingRemove]>
                           (tasks st))
  ∨ (∃ msg, sending st = Some (c, msg)
            ∧ st' = set_sending
                      (set_tasks st
                         (<[c := mkTask (task_pair t) (task_received t ++ [msg]) InHandler]>
                            (tasks st)))
                      None).
Proof.
  unfold handler_case.
  destruct (handlerIDPair.h (task_pair t) (task_received t)) as [[e|]|].
  - intros [= <-]. left. now exists e.
  - intros [= <-]. right. now left.
  - destruct (sending st) as [[c' msg]|]; [|discriminate].
    destruct (decide (c' = c)) as [->|]; [|discriminate].
    intros [= <-]. right. right. now exists msg.
Qed.

(** A key absent from the map stays absent as long as no registration of
    it is taken. *)
Lemma absent_step (st st' : ActorState) (ev : Event) (X : messageID) :
  step st ev = Some st' → (∀ p, ev = AddHandler p → handlerIDPair.id p ≠ X) →
  handlers st !! X = None → handlers st' !! X = None.
Proof.
  intros Hstep Hev Hno. destruct ev as [p | c | msg | c].
  - apply step_add_inv in Hstep as (_ & _ & ->). simpl.
    rewrite lookup_insert_ne; [assumption | now apply Hev].
  - apply step_remove_inv in Hstep as (_ & _ & t & _ & _ & ->). simpl.
    apply lookup_delete_None. now right.
  - apply step_call_inv in Hstep as (_ & _ & ->). unfold call_case.
    now destruct (handlers st !! MessageID msg).
  - apply step_handler_inv in Hstep as (_ & t & _ & _ & Hh).
    apply handler_case_inv in Hh as [[e ->] | [-> | (msg & _ & ->)]]; assumption.
Qed.

Lemma absent_exec (evs : list Event) (st st' : ActorState) (X : messageID) :
  exec st evs = Some st' → no_add_for X evs →
  handlers st !! X = None → handlers st' !! X = None.
Proof.
  revert st. induction evs as [|ev evs IH]; intros st; simpl.
  - now intros [= <-].
  - destruct (step st ev) as [st1|] eqn:Hstep; [|discriminate].
    intros Hrun Hno Habs. apply (IH st1 Hrun).
    + intros p Hp. apply Hno. now apply list_elem_of_further.
    + apply (absent_step st st1 ev X Hstep); [|assumption].
      intros p ->. apply Hno. apply list_elem_of_here.
Qed.

(** Once the loop has taken the removal sent by the goroutine of channel
    [c], every message that carries the id of that registration is dropped,
    in every later state in which the loop takes one, until the id is
    registered again. *)
Theorem removed_id_is_dropped (st st1 st2 : ActorState) (c : nat) (t : Task)
    (evs : list Event) (msg : Message) :
  tasks st !! c = Some t →
  step st (RemoveHandler c) = Some st1 →
  exec st1 evs = Some st2 →
  no_add_for (handlerIDPair.id (task_pair t)) evs →
  MessageID msg = handlerIDPair.id (task_pair t) →
  exited st2 = None → sending st2 = None →
  handlers st2 !! MessageID msg = None
  ∧ step st2 (CallHandler msg) = Some st2.
Proof.
  intros Hc Hrem Hrun Hno Hid Hal Hsel.
  apply step_remove_inv in Hrem as (_ & _ & t' & Hc' & _ & ->).
  rewrite Hc in Hc'. inversion Hc'; subst t'.
  assert (Habs : handlers st2 !! MessageID msg = None).
  { rewrite Hid. apply (absent_exec evs _ st2 _ Hrun Hno). simpl.
    apply lookup_delete_eq. }
  split; [exact Habs|].
  unfold step, at_select, call_case. now rewrite Hal, Hsel, Habs.
Qed.

Lemma removed_id_is_dropped_witness :
  handlers (add_case
              {| handlers := ∅;
                 tasks := [mkTask (handlerIDPair.mk returns_nil "1") [] Finished];
                 sending := None; exited := None |}
              (handlerIDPair.mk reads_forever "2")) !! "1" = None
  ∧ step (add_case
            {| handlers := ∅;
               tasks := [mkTask (handlerIDPair.mk returns_nil "1") [] Finished];
               sending := None; exited := None |}
            (handlerIDPair.mk reads_forever "2"))
         (CallHandler (response_with_id "1"))
    = Some (add_case
              {| handlers := ∅;
                 tasks := [mkTask (handlerIDPair.mk returns_nil "1") [] Finished];
                 sending := None; exited := None |}
              (handlerIDPair.mk reads_forever "2")).
Proof.
  apply (removed_id_is_dropped
           {| handlers := {["1" := 0%nat]};
              tasks := [mkTask (handlerIDPair.mk returns_nil "1") [] SendingRemove];
              sending := None; exited := None |}
           {| handlers := ∅;
              tasks := [mkTask (handlerIDPair.mk returns_nil "1") [] Finished];
              sending := None; exited := None |}
           _ 0%nat
           (mkTask (handlerIDPair.mk returns_nil "1") [] SendingRemove)
           [AddHandler (handlerIDPair.mk reads_forever "2")]
           (response_with_id "1")).
  - reflexivity.
  - vm_compute. reflexivity.
  - reflexivity.
  - intros p Hp. apply list_elem_of_singleton in Hp. inversion Hp; subst p.
    simpl. discriminate.
  - reflexivity.
  - reflexivity.
  - reflexivity.
Defined.

Lemma received_on_update (st : ActorState) (c c0 : nat) (t t' : Task) :
  tasks st !! c0 = Some t → (c0 = c → task_received t' = task_received t) →
  task_received <$> <[c0 := t']> (tasks st) !! c = task_received <$> tasks st !! c.
Proof.
  intros Hc0 Hsame. destruct (decide (c0 = c)) as [->|Hne].
  - rewrite list_lookup_insert_eq by (eapply lookup_lt_Some; eauto).
    rewrite Hc0. simpl. f_equal. now apply Hsame.
  - now rewrite list_lookup_insert_ne.
Qed.

(** An orphaned channel stays orphaned, and its goroutine reads nothing. *)
Lemma orphaned_step (st st' : ActorState) (ev : Event) (c : nat) :
  step st ev = Some st' → orphaned st c →
  orphaned st' c ∧ received_on st' c = received_on st c.
Proof.
  intros Hstep (Hlen & Hkeys & Hsend). unfold received_on.
  destruct ev as [p | c0 | msg | c0].
  - apply step_add_inv in Hstep as (_ & Hsel & ->). simpl. split; [split; [|split]|].
    + simpl. rewrite length_app. lia.
    + intros X. simpl. destruct (decide (handlerIDPair.id p = X)) as [<-|Hne].
      * rewrite lookup_insert_eq. intros [= Heq]. lia.
      * rewrite lookup_insert_ne by assumption. apply Hkeys.
    + simpl. intros msg. congruence.
    + now rewrite lookup_app_l.
  - apply step_remove_inv in Hstep as (_ & Hsel & t & Hc0 & _ & ->).
    simpl. split; [split; [|split]|].
    + simpl. now rewrite length_insert.
    + intros X. simpl. intros Hx. apply lookup_delete_Some in Hx as [_ Hx].
      now apply (Hkeys X).
    + simpl. apply Hsend.
    + now apply (received_on_update st c c0 t).
  - apply step_call_inv in Hstep as (_ & Hsel & ->). unfold call_case.
    destruct (handlers st !! MessageID msg) as [c1|] eqn:Hc1.
    + simpl. split; [split; [|split]|]; try assumption; [|reflexivity].
      simpl. intros m [= -> _]. now apply (Hkeys (MessageID msg)).
    + now repeat split.
  - apply step_handler_inv in Hstep as (_ & t & Hc0 & _ & Hh).
    apply handler_case_inv in Hh as [[e ->] | [-> | (msg & Hs & ->)]]; simpl.
    + now repeat split.
    + split; [split; [|split]|]; simpl.
      * now rewrite length_insert.
      * assumption.
      * assumption.
      * now apply (received_on_update st c c0 t).
    + assert (Hne : c0 ≠ c) by (intros ->; now apply (Hsend msg)).
      split; [split; [|split]|]; simpl.
      * now rewrite length_insert.
      * assumption.
      * discriminate.
      * apply (received_on_update st c c0 t); [assumption | congruence].
Qed.

Lemma orphaned_exec (evs : list Event) (st st' : ActorState) (c : nat) :
  exec st evs = Some st' → orphaned st c →
  orphaned st' c ∧ received_on st' c = received_on st c.
Proof.
  revert st. induction evs as [|ev evs IH]; intros st; simpl.
  - intros [= <-]. now split.
  - destruct (step st ev) as [st1|] eqn:Hstep; [|discriminate].
    intros Hrun Horph.
    destruct (orphaned_step st st1 ev c Hstep Horph) as [Horph1 Hrec1].
    destruct (IH st1 Hrun Horph1) as [Horph2 Hrec2].
    split; [assumption | congruence].
Qed.

(** A second registration under an id that is still registered takes the
    map entry over: the new channel stands under the id, and the goroutine
    of the earlier registration reads no message ever after, whatever
    happens. *)
Theorem reregistration_orphans_handler (evs evs' : list Event)
    (st st1 st2 : ActorState) (X : messageID) (c0 : nat) (h : Handler) :
  exec actor_init evs = Some st →
  handlers st !! X = Some c0 →
  step st (AddHandler (handlerIDPair.mk h X)) = Some st1 →
  exec st1 evs' = Some st2 →
  handlers st1 !! X = Some (length (tasks st))
  ∧ c0 ≠ length (tasks st)
  ∧ received_on st2 c0 = received_on st c0.
Proof.
  intros Hrun Hx Hadd Hrun'.
  pose proof (routes_by_id_exec evs actor_init st Hrun routes_by_id_init)
    as (Hmap & _ & _).
  apply step_add_inv in Hadd as (_ & Hsel & ->).
  pose proof (Hmap X c0 Hx) as Hid.
  assert (Hlt : (c0 < length (tasks st))%nat).
  { apply lookup_lt_Some in Hid. unfold chan_ids in Hid.
    now rewrite length_fmap in Hid. }
  split; [simpl; apply lookup_insert_eq|].
  split; [lia|].
  assert (Horph : orphaned (add_case st (handlerIDPair.mk h X)) c0).
  { split; [|split]; simpl.
    - rewrite length_app. lia.
    - intros Y. destruct (decide (X = Y)) as [<-|Hne].
      + rewrite lookup_insert_eq. intros [= Heq]. lia.
      + rewrite lookup_insert_ne by assumption. intros Hy.
        pose proof (Hmap Y c0 Hy) as Hid'. congruence.
    - intros msg. congruence. }
  destruct (orphaned_exec evs' _ st2 c0 Hrun' Horph) as [_ Hrec].
  rewrite Hrec. unfold received_on, add_case. simpl.
  now rewrite lookup_app_l.
Qed.

Lemma reregistration_orphans_handler_witness :
  handlers (add_case (add_case actor_init (handlerIDPair.mk reads_forever "7"))
                     (handlerIDPair.mk reads_forever "7")) !! "7"
  = Some (length (tasks (add_case actor_init (handlerIDPair.mk reads_forever "7"))))
  ∧ 0%nat ≠ length (tasks (add_case actor_init (handlerIDPair.mk reads_forever "7")))
  ∧ received_on
      {| handlers := {["7" := 1%nat]};
         tasks := [mkTask (handlerIDPair.mk reads_forever "7") [] InHandler;
                   mkTask (handlerIDPair.mk reads_forever "7")
                          [response_with_id "7"] InHandler];
         sending := None; exited := None |} 0
    = received_on (add_case actor_init (handlerIDPair.mk reads_forever "7")) 0.
Proof.
  apply (reregistration_orphans_handler
           [AddHandler (handlerIDPair.mk reads_forever "7")]
           [CallHandler (response_with_id "7"); HandlerRuns 1]
           (add_case actor_init (handlerIDPair.mk reads_forever "7"))
           (add_case (add_case actor_init (handlerIDPair.mk reads_forever "7"))
                     (handlerIDPair.mk reads_forever "7"))
           _ "7" 0%nat reads_forever).
  - reflexivity.
  - vm_compute. reflexivity.
  - reflexivity.
  - vm_compute. reflexivity.
Defined.

Lemma in_flight_at_select (st : ActorState) (c : nat) :
  sending st = None → in_flight st c = [].
Proof. unfold in_flight. now intros ->. Qed.

Lemma reads_within_step (st st' : ActorState) (ev : Event) (l : list Message) :
  step st ev = Some st' → reads_within st l → reads_within st' (l ++ calls [ev]).
Proof.
  intros Hstep Hin. destruct ev as [p | c0 | msg | c0]; simpl.
  - apply step_add_inv in Hstep as (_ & Hsel & ->). rewrite app_nil_r.
    intros c t Ht. simpl in Ht.
    rewrite in_flight_at_select by exact Hsel.
    apply lookup_app_Some in Ht as [Ht | [_ Ht]].
    + specialize (Hin c t Ht). now rewrite in_flight_at_select in Hin.
    + apply list_lookup_singleton_Some in Ht as [_ <-]. apply sublist_nil_l.
  - apply step_remove_inv in Hstep as (_ & Hsel & t0 & Hc0 & _ & ->). rewrite app_nil_r.
    intros c t Ht. simpl in Ht.
    rewrite in_flight_at_select by exact Hsel.
    destruct (tasks_update_lookup _ _ _ _ _ _ Hc0 Ht) as [[-> ->] | [_ Hold]].
    + specialize (Hin c0 t0 Hc0). now rewrite in_flight_at_select in Hin.
    + specialize (Hin c t Hold). now rewrite in_flight_at_select in Hin.
  - apply step_call_inv in Hstep as (_ & Hsel & ->).
    intros c t Ht.
    assert (Hold : task_received t `sublist_of` l).
    { unfold call_case in Ht. destruct (handlers st !! MessageID msg); simpl in Ht;
        specialize (Hin c t Ht); rewrite in_flight_at_select in Hin by exact Hsel;
        now rewrite app_nil_r in Hin. }
    unfold call_case. destruct (handlers st !! MessageID msg) as [c1|].
    + unfold in_flight. simpl. destruct (decide (c1 = c)).
      * now apply sublist_app.
      * rewrite app_nil_r. now apply sublist_inserts_r.
    + rewrite in_flight_at_select by exact Hsel.
      rewrite app_nil_r. now apply sublist_inserts_r.
  - apply step_handler_inv in Hstep as (_ & t0 & Hc0 & _ & Hh). rewrite app_nil_r.
    apply handler_case_inv in Hh as [[e ->] | [-> | (msg & Hs & ->)]].
    + exact Hin.
    + intros c t Ht. simpl in Ht.
      change (in_flight (set_tasks st _) c) with (in_flight st c).
      destruct (tasks_update_lookup _ _ _ _ _ _ Hc0 Ht) as [[-> ->] | [_ Hold]].
      * exact (Hin c0 t0 Hc0).
      * exact (Hin c t Hold).
    + intros c t Ht. simpl in Ht.
      rewrite in_flight_at_select by reflexivity. rewrite app_nil_r.
      destruct (tasks_update_lookup _ _ _ _ _ _ Hc0 Ht) as [[-> ->] | [Hne Hold]].
      * specialize (Hin c0 t0 Hc0). unfold in_flight in Hin. rewrite Hs in Hin.
        now rewrite decide_True in Hin by reflexivity.
      * specialize (Hin c t Hold). unfold in_flight in Hin. rewrite Hs in Hin.
        rewrite decide_False in Hin by congruence. now rewrite app_nil_r in Hin.
Qed.

Lemma calls_cons (ev : Event) (evs : list Event) :
  calls (ev :: evs) = calls [ev] ++ calls evs.
Proof. unfold calls. simpl. now destruct ev. Qed.

Lemma reads_within_exec (evs : list Event) (st st' : ActorState) (l : list Message) :
  exec st evs = Some st' → reads_within st l → reads_within st' (l ++ calls evs).
Proof.
  revert st l. induction evs as [|ev evs IH]; intros st l; cbn [exec].
  - intros [= <-]. change (calls []) with (@nil Message). now rewrite app_nil_r.
  - destruct (step st ev) as [st1|] eqn:Hstep; [|discriminate].
    intros Hrun Hin. rewrite calls_cons, app_assoc.
    apply (IH st1 _ Hrun). now apply (reads_within_step st st1 ev).
Qed.

(** In every run from the start, what a handler has read is a subsequence
    of the messages the loop took from [callHandlerChan], in the order it
    took them: a message is delivered at most once per time it was taken,
    and never ahead of one taken before it. *)
Theorem delivery_keeps_dispatch_order (evs : list Event) (st : ActorState)
    (c : nat) (t : Task) :
  exec actor_init evs = Some st →
  tasks st !! c = Some t →
  task_received t `sublist_of` calls evs.
Proof.
  intros Hrun Ht.
  assert (H0 : reads_within actor_init []).
  { intros c0 t0 Hc0. simpl in Hc0. now rewrite lookup_nil in Hc0. }
  pose proof (reads_within_exec evs actor_init st [] Hrun H0 c t Ht) as Hsub.
  simpl in Hsub. transitivity (task_received t ++ in_flight st c); [|exact Hsub].
  now apply sublist_inserts_r.
Qed.

Lemma delivery_keeps_dispatch_order_witness :
  [response_with_id "7"] `sublist_of`
    calls [AddHandler (handlerIDPair.mk reads_forever "7");
           CallHandler (response_with_id "8");
           CallHandler (response_with_id "7");
           HandlerRuns 0].
Proof.
  apply (delivery_keeps_dispatch_order
           [AddHandler (handlerIDPair.mk reads_forever "7");
            CallHandler (response_with_id "8");
            CallHandler (response_with_id "7");
            HandlerRuns 0]
           {| handlers := {["7" := 0%nat]};
              tasks := [mkTask (handlerIDPair.mk reads_forever "7")
                               [response_with_id "7"] InHandler];
              sending := None; exited := None |}
           0%nat
           (mkTask (handlerIDPair.mk reads_forever "7") [response_with_id "7"] InHandler)).
  - vm_compute. reflexivity.
  - reflexivity.
Defined.

Lemma stuck_on_step (st st' : ActorState) (ev : Event) (c : nat) (msg : Message) :
  step st ev = Some st' → stuck_on st c msg →
  stuck_on st' c msg ∧ handlers st' = handlers st.
Proof.
  intros Hstep (Hs & t & Hc & Hst). destruct ev as [p | c0 | m | c0].
  - apply step_add_inv in Hstep as (_ & Hsel & _). congruence.
  - apply step_remove_inv in Hstep as (_ & Hsel & _). congruence.
  - apply step_call_inv in Hstep as (_ & Hsel & _). congruence.
  - apply step_handler_inv in Hstep as (_ & t0 & Hc0 & Hst0 & Hh).
    assert (Hne : c0 ≠ c) by (intros ->; congruence).
    apply handler_case_inv in Hh as [[e ->] | [-> | (m & Hs0 & ->)]].
    + split; [|reflexivity]. split; [exact Hs|]. now exists t.
    + split; [|reflexivity]. split; [exact Hs|]. exists t.
      split; [|assumption]. simpl. now rewrite list_lookup_insert_ne.
    + congruence.
Qed.

(** When a handler has returned while the loop was sending to it, the loop
    never reaches its [select] again: in every later state the send is
    still pending, the handler map is what it was, and no registration,
    removal or message is taken. *)
Theorem send_to_returned_handler_blocks_forever (evs : list Event)
    (st st' : ActorState) (c : nat) (t : Task) (msg : Message) :
  sending st = Some (c, msg) →
  tasks st !! c = Some t →
  task_state t ≠ InHandler →
  exec st evs = Some st' →
  sending st' = Some (c, msg)
  ∧ handlers st' = handlers st
  ∧ (∀ p, step st' (AddHandler p) = None)
  ∧ (∀ c', step st' (RemoveHandler c') = None)
  ∧ (∀ m, step st' (CallHandler m) = None).
Proof.
  intros Hs Hc Hst Hrun.
  assert (Hstuck : stuck_on st' c msg ∧ handlers st' = handlers st).
  { assert (H0 : stuck_on st c msg) by (split; [assumption | now exists t]).
    clear Hs Hc Hst. revert st Hrun H0.
    induction evs as [|ev evs IH]; intros st; simpl.
    - intros [= <-] H0. now split.
    - destruct (step st ev) as [st1|] eqn:Hstep; [|discriminate].
      intros Hrun H0.
      destruct (stuck_on_step st st1 ev c msg Hstep H0) as [H1 Hh1].
      destruct (IH st1 Hrun H1) as [H2 Hh2]. split; [assumption | congruence]. }
  destruct Hstuck as [(Hs' & _) Hh].
  split; [assumption|]. split; [assumption|].
  repeat split; intros x; unfold step, at_select; rewrite Hs';
    now destruct (exited st').
Qed.

Lemma send_to_returned_handler_blocks_forever_witness :
  sending blocked_after = Some (0%nat, response_with_id "1")
  ∧ handlers blocked_after = handlers blocked_before
  ∧ (∀ p, step blocked_after (AddHandler p) = None)
  ∧ (∀ c', step blocked_after (RemoveHandler c') = None)
  ∧ (∀ m, step blocked_after (CallHandler m) = None).
Proof.
  apply (send_to_returned_handler_blocks_forever
           [HandlerRuns 1] blocked_before blocked_after 0%nat
           (mkTask (handlerIDPair.mk returns_nil "1") [] SendingRemove)
           (response_with_id "1")).
  - reflexivity.
  - reflexivity.
  - discriminate.
  - reflexivity.
Defined.

(** ** A request and its response, end to end *)

Section RoundTrip.
Context `{Env} `{Receivers}.

(** In every world: when [Request(m, h)] has returned and the router, given
    a body that decodes to a message of [m]'s id, has returned too, what the
    two calls sent to the actor is the registration of [h] followed by that
    message. A loop at its [select] that takes them registers a new channel
    under the id and sends the message on it, and [h], reading its channel,
    gets it: the new map entry and the new goroutine, which has read exactly
    this message, are the only changes. *)
Theorem request_response_round_trip (s : Service) (m msg : Message) (h : Handler)
    (body : bytes) (st : ActorState) (w w1 w2 : World) :
  Request s m (Some h) w = (w1, Ret None) →
  HandleMessage s body w1 = (w2, Ret None) →
  json_Unmarshal_Message body = inr msg →
  MessageID msg = MessageID m →
  h [] = None →
  exited st = None → sending st = None →
  actor_events (effects_since w w2)
  = [AddHandler (handlerIDPair.mk h (MessageID m)); CallHandler msg]
  ∧ exec st (actor_events (effects_since w w2) ++ [HandlerRuns (length (tasks st))])
    = Some {| handlers := <[MessageID m := length (tasks st)]> (handlers st);
              tasks := tasks st
                       ++ [mkTask (handlerIDPair.mk h (MessageID m)) [msg] InHandler];
              sending := None;
              exited := None |}.
Proof.
  intros Hreq Hrouter Hdec Hid Hh Hal Hsel.
  set (p := handlerIDPair.mk h (MessageID m)).
  assert (Hev : actor_events (effects_since w w2) = [AddHandler p; CallHandler msg]).
  { unfold Request, produce, send, publish, perform, log_Fatal, mbind, M_bind, mret, M_ret
      in Hreq.
    destruct (taken w _); [|discriminate].
    destruct (json_Marshal m) as [err|out]; [discriminate|].
    inversion Hreq; subst w1; clear Hreq.
    unfold HandleMessage, send, perform, mbind, M_bind, mret, M_ret in Hrouter.
    rewrite Hdec in Hrouter.
    destruct (taken _ _); [|discriminate].
    inversion Hrouter; subst w2; clear Hrouter.
    unfold effects_since. simpl. rewrite <- !app_assoc, drop_app_length.
    reflexivity. }
  split; [exact Hev|]. rewrite Hev. cbn [app].
  set (n := length (tasks st)).
  assert (H1 : step st (AddHandler p) = Some (add_case st p)).
  { unfold step, at_select. now rewrite Hal, Hsel. }
  assert (H2 : step (add_case st p) (CallHandler msg)
               = Some (set_sending (add_case st p) (Some (n, msg)))).
  { unfold step, at_select, call_case. simpl. rewrite Hal, Hsel, Hid.
    subst p. simpl. now rewrite lookup_insert_eq. }
  assert (H3 : step (set_sending (add_case st p) (Some (n, msg))) (HandlerRuns n)
               = Some {| handlers := <[MessageID m := n]> (handlers st);
                         tasks := tasks st ++ [mkTask p [msg] InHandler];
                         sending := None;
                         exited := None |}).
  { unfold step. simpl. rewrite Hal.
    rewrite lookup_app_r by (subst n; lia). subst n. rewrite Nat.sub_diag. simpl.
    unfold handler_case. simpl. rewrite Hh.
    rewrite decide_True by reflexivity.
    unfold set_sending, set_tasks. simpl.
    rewrite insert_app_r_alt by lia. rewrite Nat.sub_diag. simpl.
    now rewrite Hal. }
  cbn [exec]. rewrite H1, H2, H3. reflexivity.
Qed.

End RoundTrip.

Lemma request_response_round_trip_witness :
  actor_events
    (effects_since
       {| effects := [HttpGet "http://localhost:4161/topics"]; next_chan := 1 |}
       {| effects := [HttpGet "http://localhost:4161/topics";
                      SendAddHandler (handlerIDPair.mk reads_forever "1");
                      Publish "honeybadger-1-bees" [];
                      SendCallHandler (response_with_id "1")];
          next_chan := 1 |})
  = [AddHandler (handlerIDPair.mk reads_forever
                   (MessageID (NewMessage honeybadger "bees" [] 0).1));
     CallHandler (response_with_id "1")]
  ∧ exec actor_init
         (actor_events
            (effects_since
               {| effects := [HttpGet "http://localhost:4161/topics"]; next_chan := 1 |}
               {| effects := [HttpGet "http://localhost:4161/topics";
                              SendAddHandler (handlerIDPair.mk reads_forever "1");
                              Publish "honeybadger-1-bees" [];
                              SendCallHandler (response_with_id "1")];
                  next_chan := 1 |})
          ++ [HandlerRuns (length (tasks actor_init))])
    = Some {| handlers := <[MessageID (NewMessage honeybadger "bees" [] 0).1
                            := length (tasks actor_init)]> (handlers actor_init);
              tasks := tasks actor_init
                       ++ [mkTask (handlerIDPair.mk reads_forever
                                     (MessageID (NewMessage honeybadger "bees" [] 0).1))
                                  [response_with_id "1"] InHandler];
              sending := None;
              exited := None |}.
Proof.
  apply (@request_response_round_trip reply_env always_taken honeybadger
           (NewMessage honeybadger "bees" [] 0).1 (response_with_id "1")
           reads_forever [] actor_init
           {| effects := [HttpGet "http://localhost:4161/topics"]; next_chan := 1 |}
           {| effects := [HttpGet "http://localhost:4161/topics";
                          SendAddHandler (handlerIDPair.mk reads_forever "1");
                          Publish "honeybadger-1-bees" []];
              next_chan := 1 |});
    reflexivity.
Defined.

(** ** Correlation ids across the wrap-around *)

Lemma wrap_int_add_l (a b : Z) : wrap_int (wrap_int a + b) = wrap_int (a + b).
Proof.
  unfold wrap_int.
  generalize (2 ^ (IntSize - 1)) as H. generalize (2 ^ IntSize) as M. intros M H.
  replace ((a + H) mod M - H + b + H) with ((a + H) mod M + b) by lia.
  rewrite Zplus_mod_idemp_l. do 2 f_equal. lia.
Qed.

Lemma wrap_int_inj (a b : Z) :
  0 ≤ b - a < 2 ^ IntSize → wrap_int a = wrap_int b → a = b.
Proof.
  unfold wrap_int, IntSize.
  change (2 ^ (64 - 1)) with 9223372036854775808.
  change (2 ^ 64) with 18446744073709551616.
  intros Hab Heq.
  pose proof (Z.div_mod (a + 9223372036854775808) 18446744073709551616 ltac:(lia)) as Ha.
  pose proof (Z.div_mod (b + 9223372036854775808) 18446744073709551616 ltac:(lia)) as Hb.
  set (qa := (a + 9223372036854775808) / 18446744073709551616) in *.
  set (qb := (b + 9223372036854775808) / 18446744073709551616) in *.
  lia.
Qed.

(** Whatever the counter, the [j]-th call returns the decimal form of
    [i + 1 + j] brought back into the range of [int]. *)
Lemma NewMessages_ids_wrapped (calls : list (string * bytes * time)) (s : Service)
    (j : nat) (m : Message) :
  (NewMessages s calls).1 !! j = Some m →
  MessageID m = Itoa (wrap_int (i s + 1 + Z.of_nat j)).
Proof.
  revert s j. induction calls as [|[[ct payload] now] rest IH]; intros s j.
  - simpl. now rewrite lookup_nil.
  - cbn [NewMessages].
    destruct (NewMessage_id s ct payload now) as [Hid Hs1].
    destruct (NewMessage s ct payload now) as [m1 s1]. simpl in Hid, Hs1. subst s1.
    specialize (IH (set_i s (wrap_int (i s + 1)))).
    destruct (NewMessages (set_i s (wrap_int (i s + 1))) rest) as [ms s2].
    simpl in *. destruct j as [|j]; simpl.
    + intros [= <-]. rewrite Hid. do 2 f_equal. lia.
    + intros Hj. rewrite (IH j Hj).
      replace (wrap_int (i s + 1) + 1 + Z.of_nat j)
        with (wrap_int (i s + 1) + (1 + Z.of_nat j)) by lia.
      rewrite wrap_int_add_l. do 2 f_equal. lia.
Qed.

(** The ids one service gives to at most [2 ^ IntSize] successive messages
    are pairwise different, from whatever counter value it starts and also
    when the counter wraps around in between. *)
Theorem NewMessages_ids_distinct (s : Service) (calls : list (string * bytes * time))
    (j k : nat) (mj mk : Message) :
  Z.of_nat (length calls) ≤ 2 ^ IntSize →
  j ≠ k →
  (NewMessages s calls).1 !! j = Some mj →
  (NewMessages s calls).1 !! k = Some mk →
  MessageID mj ≠ MessageID mk.
Proof.
  intros Hlen Hjk Hj Hk Heq.
  assert (Hlen' : length (NewMessages s calls).1 = length calls).
  { clear. revert s. induction calls as [|[[ct payload] now] rest IH]; intros s.
    - reflexivity.
    - cbn [NewMessages]. destruct (NewMessage s ct payload now) as [m1 s1].
      specialize (IH s1). destruct (NewMessages s1 rest) as [ms s2].
      simpl in *. now rewrite IH. }
  pose proof (lookup_lt_Some _ _ _ Hj) as Hjlt.
  pose proof (lookup_lt_Some _ _ _ Hk) as Hklt.
  rewrite (NewMessages_ids_wrapped calls s j mj Hj),
          (NewMessages_ids_wrapped calls s k mk Hk) in Heq.
  apply Itoa_inj in Heq.
  destruct (decide (j < k)%nat) as [Hlt|Hge].
  - apply wrap_int_inj in Heq; lia.
  - symmetry in Heq. apply wrap_int_inj in Heq; lia.
Qed.

Lemma NewMessages_ids_distinct_witness :
  ("9223372036854775807" : string) ≠ "-9223372036854775808".
Proof.
  apply (NewMessages_ids_distinct (set_i honeybadger (MaxInt - 1))
           [("bees", [], 0); ("bees", [], 1)] 0 1
           (NewMessage (set_i honeybadger (MaxInt - 1)) "bees" [] 0).1
           (NewMessage (NewMessage (set_i honeybadger (MaxInt - 1)) "bees" [] 0).2
                       "bees" [] 1).1).
  - vm_compute. discriminate.
  - lia.
  - vm_compute. reflexivity.
  - vm_compute. reflexivity.
Defined.

(** ** Discovery: selection, announcements and the watcher *)

Lemma append_assoc (a b c : string) : (a +:+ b) +:+ c = a +:+ (b +:+ c).
Proof.
  induction a as [|x a IH]; [reflexivity|].
  change (String x ((a +:+ b) +:+ c) = String x (a +:+ (b +:+ c))). now f_equal.
Qed.

Lemma append_empty_r (a : string) : a +:+ "" = a.
Proof.
  induction a as [|x a IH]; [reflexivity|].
  change (String x (a +:+ "") = String x a). now f_equal.
Qed.

(** The empty content type is a suffix of every name: the snapshot lookup
    for it keeps the whole registry, in order. *)
Theorem select_topics_empty_content_type (topics : list string) :
  select_topics "" topics = topics.
Proof.
  rewrite select_topics_filter.
  induction topics as [|name topics IH]; simpl; [reflexivity|].
  assert (Hs : HasSuffix name "" = true).
  { apply HasSuffix_spec. exists name. now rewrite append_empty_r. }
  now rewrite Hs, IH.
Qed.

(** The snapshot lookup finds every listed topic that was named by
    [getName] for a content type ending in the one looked up: for that
    content type itself ([p] empty), and also for a longer one. *)
Theorem select_topics_finds_topic (ct p : string) (topics : list string) (t : topic.t) :
  topic.ContentType t = p +:+ ct →
  topic.getName t ∈ topics →
  topic.getName t ∈ select_topics ct topics.
Proof.
  intros Hct Hin. apply select_topics_elem. split; [assumption|].
  exists (topic.ServiceName t +:+ "-" +:+ topic.ServiceID t +:+ "-" +:+ p).
  unfold topic.getName. rewrite Hct.
  now rewrite !append_assoc.
Qed.

Lemma select_topics_finds_topic_witness :
  topic.getName (topic.mk "hive" "3" "killerbees")
  ∈ select_topics "bees" ["bear-2-honey"; "hive-3-killerbees"].
Proof.
  apply (select_topics_finds_topic "bees" "killer"
           ["bear-2-honey"; "hive-3-killerbees"] (topic.mk "hive" "3" "killerbees")).
  - reflexivity.
  - apply list_elem_of_further, list_elem_of_here.
Defined.

Lemma filter_idem {A} (f : A → bool) (l : list A) :
  List.filter f (List.filter f l) = List.filter f l.
Proof.
  induction l as [|a l IH]; simpl; [reflexivity|].
  destruct (f a) eqn:Ha; simpl; [now rewrite Ha, IH | exact IH].
Qed.

(** The selection works name by name: the selection from two lists, one
    after the other, is the two selections one after the other (order and
    repetitions are kept), and selecting again changes nothing. *)
Theorem select_topics_app_idem (ct : string) (l1 l2 : list string) :
  select_topics ct (l1 ++ l2) = select_topics ct l1 ++ select_topics ct l2
  ∧ select_topics ct (select_topics ct l1) = select_topics ct l1.
Proof.
  rewrite !select_topics_filter. split; [apply List.filter_app | apply filter_idem].
Qed.

Lemma subscribed_of_messages (f : Message → string) (channel : string) (sink : Sink)
    (l : list Message) :
  subscribed ((λ m, Subscribe (f m) channel sink) <$> l) = f <$> l.
Proof.
  induction l as [|a l IH]; [reflexivity|].
  change (f a :: subscribed ((λ m, Subscribe (f m) channel sink) <$> l) = f a :: (f <$> l)).
  now rewrite IH.
Qed.

Section WatcherProperties.
Context `{Env}.

(** [createTopic] makes one HTTP request and comes back or exits. *)
Lemma createTopic_world (s : Service) (name : string) (w : World) :
  ∃ o, createTopic s name w
       = ({| effects := effects w
               ++ [HttpGet ("http://" +:+ nsqdHTTPAddr s +:+ "/create_topic?topic="
                            +:+ name)];
             next_chan := next_chan w |}, o)
       ∧ o ≠ Hang.
Proof.
  unfold createTopic, http_get, perform, log_Fatal, mbind, M_bind, mret, M_ret.
  destruct (http_Get _) as [err|body]; [now eexists|].
  destruct (decide _); now eexists.
Qed.

(** The loop of the watcher subscribes to the topic of each announcement of
    its content type, in order and as often as announced, and then waits;
    it ends only by the exit on a refused subscription. *)
Lemma watch_loop_spec (s : Service) (ct : string) (inbound : nat)
    (msgs : list Message) (w : World) :
  match watch_loop s ct inbound msgs w with
  | (w', Hang) =>
      effects w'
      = effects w
        ++ ((λ m, Subscribe (topic.getName (Topic m)) (Name s +:+ "-" +:+ ID s)
                            (ToChan inbound))
              <$> filter (λ m, ContentType m = ct) msgs)
      ∧ next_chan w' = next_chan w
  | (_, Fatal e) =>
      ∃ m, m ∈ msgs ∧ ContentType m = ct
           ∧ nsq_NewConsumer (topic.getName (Topic m)) (Name s +:+ "-" +:+ ID s) = Some e
  | (_, Ret _) => False
  end.
Proof.
  revert w. induction msgs as [|m msgs IH]; intros w.
  - simpl. unfold hang. now rewrite app_nil_r.
  - cbn [watch_loop]. destruct (decide (ContentType m ≠ ct)) as [Hne|Heq].
    + specialize (IH w). rewrite filter_cons_False by assumption.
      destruct (watch_loop s ct inbound msgs w) as [w' [[]|e|]]; try assumption.
      destruct IH as (m' & Hin & Hct & Hnew). exists m'.
      split; [now apply list_elem_of_further | now split].
    + assert (Hct : ContentType m = ct) by (destruct (decide (ContentType m = ct)); tauto).
      rewrite filter_cons_True by assumption.
      unfold mbind, M_bind, subscribe.
      destruct (nsq_NewConsumer (topic.getName (Topic m)) (Name s +:+ "-" +:+ ID s))
        as [e|] eqn:Hnew.
      * unfold log_Fatal. exists m. split; [apply list_elem_of_here | now split].
      * unfold perform.
        match goal with
        | |- context [watch_loop s ct inbound msgs ?w0] => specialize (IH w0)
        end.
        destruct (watch_loop s ct inbound msgs _) as [w' [[]|e|]]; simpl in *.
        -- assumption.
        -- destruct IH as (m' & Hin & Hct' & Hnew'). exists m'.
           split; [now apply list_elem_of_further | now split].
        -- destruct IH as [-> ->]. now rewrite <- app_assoc.
Qed.

(** [watchForContentType] never returns. When it neither exits nor fails,
    what it has subscribed to is the announce topic, on a channel of its
    own for this service and content type, and then the topic of every
    announcement of its content type that the announce channel carried,
    once per announcement: an announcement that is repeated, or whose topic
    the snapshot had found already, is subscribed to again. *)
Theorem watchForContentType_subscriptions (s : Service) (ct : string) (inbound : nat)
    (w : World) :
  match watchForContentType s ct inbound w with
  | (w', Hang) =>
      subscribed (effects w')
      = subscribed (effects w)
        ++ "colony-announce"
           :: ((λ m, topic.getName (Topic m))
                 <$> filter (λ m, ContentType m = ct) (chan_traffic (next_chan w)))
  | (_, Fatal _) => True
  | (_, Ret _) => False
  end.
Proof.
  unfold watchForContentType. unfold mbind at 1, M_bind at 1.
  destruct (createTopic_world s "colony-announce" w) as (o & -> & Ho).
  destruct o as [r|e|]; [|exact I|now destruct Ho].
  destruct (nsq_NewConsumer "colony-announce" _) as [e|]; [exact I|].
  unfold make_chan, perform, mbind, M_bind. simpl.
  match goal with
  | |- context [watch_loop s ct inbound ?msgs ?w0] =>
      pose proof (watch_loop_spec s ct inbound msgs w0) as Hloop;
      destruct (watch_loop s ct inbound msgs w0) as [w' [[]|e|]]
  end; [exact Hloop | exact I |].
  destruct Hloop as [-> _]. simpl.
  rewrite !subscribed_app, subscribed_of_messages. simpl.
  now rewrite app_nil_r, <- app_assoc.
Qed.

End WatcherProperties.

Section AnnounceProperties.
Context `{Env} `{Receivers}.

(** [Announce] exits before doing anything when the announcement does not
    encode, and after its HTTP request when that request fails; otherwise
    it publishes the announcement on [colony-announce] and returns nil,
    whatever status nsqd gave to [create_topic] and whatever [Publish]
    returned. *)
Theorem Announce_effects (s : Service) (ct : string) (now : time) (w : World) :
  Announce s ct now w
  = match json_Marshal (announcement s ct now) with
    | inl err => (w, Fatal err)
    | inr out =>
        match http_Get ("http://" +:+ nsqdHTTPAddr s +:+ "/create_topic?topic="
                        +:+ topic.getName (topic.mk (Name s) (ID s) ct)) with
        | inl err =>
            ({| effects := effects w
                  ++ [HttpGet ("http://" +:+ nsqdHTTPAddr s +:+ "/create_topic?topic="
                               +:+ topic.getName (topic.mk (Name s) (ID s) ct))];
                next_chan := next_chan w |}, Fatal err)
        | inr _ =>
            ({| effects := effects w
                  ++ [HttpGet ("http://" +:+ nsqdHTTPAddr s +:+ "/create_topic?topic="
                               +:+ topic.getName (topic.mk (Name s) (ID s) ct));
                      Publish "colony-announce" out];
                next_chan := next_chan w |}, Ret None)
        end
    end.
Proof.
  unfold Announce. change (mkMessage (Name s) [] now ct "" (topic.mk (Name s) (ID s) ct)
                             (topic.mk "" "" "")) with (announcement s ct now).
  destruct (json_Marshal (announcement s ct now)) as [err|out]; [reflexivity|].
  unfold createTopic, http_get, publish, perform, log_Fatal, mbind, M_bind, mret, M_ret.
  destruct (http_Get _) as [err|body]; [reflexivity|].
  destruct (decide _); simpl; now rewrite <- app_assoc.
Qed.

(** A response goes where the requester listens, in every world: the
    message [NewResponse] builds for a message made by [NewMessage] on [s1]
    carries the same id; [Emit] publishes it, when it encodes, on the name of
    [s1]'s response topic, and exits without publishing when it does not;
    and that name is the one topic the response handler of [s1] subscribes
    to when it gets through, on the channel [Name-ID-responseHandler] and
    with the service as handler (it subscribes to nothing when it exits
    before). *)
Theorem response_goes_to_requester (s1 s2 : Service) (ct ct' : string)
    (payload payload' : bytes) (now now' : time) (w w' : World) :
  MessageID (NewResponse s2 (NewMessage s1 ct payload now).1 ct' payload' now')
  = MessageID (NewMessage s1 ct payload now).1
  ∧ Emit s2 (NewResponse s2 (NewMessage s1 ct payload now).1 ct' payload' now') w
    = match json_Marshal (NewResponse s2 (NewMessage s1 ct payload now).1
                                      ct' payload' now') with
      | inr out =>
          ({| effects := effects w ++ [Publish (topic.getName (responseTopic s1)) out];
              next_chan := next_chan w |}, Ret None)
      | inl err => (w, Fatal err)
      end
  ∧ match responseHandler s1 w' with
    | (w'', Ret _) =>
        effects w''
        = effects w'
          ++ [HttpGet ("http://" +:+ nsqdHTTPAddr s1 +:+ "/create_topic?topic="
                       +:+ topic.getName (responseTopic s1));
              Subscribe (topic.getName (responseTopic s1))
                        (Name s1 +:+ "-" +:+ ID s1 +:+ "-responseHandler") ToService]
    | (w'', _) => subscribed (effects w'') = subscribed (effects w')
    end.
Proof.
  split; [reflexivity|]. split.
  - unfold Emit, produce, publish, perform, log_Fatal, mbind, M_bind, mret, M_ret.
    simpl. now destruct (json_Marshal _).
  - unfold responseHandler.
    destruct (conf_Set _ _); [reflexivity|].
    unfold mbind, M_bind.
    destruct (createTopic_world s1 (topic.getName (responseTopic s1)) w')
      as (o & -> & Ho).
    destruct o as [[err|]|e|]; simpl;
      try (rewrite subscribed_app; simpl; now rewrite app_nil_r).
    unfold subscribe. destruct (nsq_NewConsumer _ _); simpl.
    + rewrite subscribed_app. simpl. now rewrite app_nil_r.
    + now rewrite <- app_assoc.
Qed.

End AnnounceProperties.

(** ** Bootstrap *)

Section BootstrapProperties.
Context `{Env} `{BootEnv}.

(** [NewService] never hangs. When lookupd answers, it returns only if the
    decoded status is 200 and [nsq.NewProducer] accepts the address of one
    of the reported nsqd nodes; the service then bears the given name and
    id, the addresses of that node, the response topic
    [name-id-responses] and a counter at zero, so that its first message
    gets the id "1". Otherwise it exits: on a status other than 200, on an
    empty list of nodes, or on the error of [nsq.NewProducer]. *)
Theorem NewService_result (name id nsqLookupd : string) (w : World) :
  match http_Get ("http://" +:+ nsqLookupd +:+ "/nodes") with
  | inl err => (NewService name id nsqLookupd w).2 = Fatal err
  | inr body =>
      match (NewService name id nsqLookupd w).2 with
      | Ret s =>
          nodesResponse.Status_code (json_Unmarshal_nodesResponse body) = 200
          ∧ (∃ p, p ∈ producers.Producers
                        (nodesResponse.Data (json_Unmarshal_nodesResponse body))
                  ∧ s = NewService_record name id nsqLookupd
                          (producer.Broadcast_address p +:+ ":"
                           +:+ Itoa (producer.Tcp_port p))
                          (producer.Broadcast_address p +:+ ":"
                           +:+ Itoa (producer.Http_port p))
                  ∧ nsq_NewProducer (nsqdAddr s) = None)
          ∧ topic.getName (responseTopic s) = name +:+ "-" +:+ id +:+ "-responses"
          ∧ ∀ ct payload now, MessageID (NewMessage s ct payload now).1 = "1"
      | Fatal e =>
          (nodesResponse.Status_code (json_Unmarshal_nodesResponse body) ≠ 200
           ∧ e = "could not get list of nsqd nodes")
          ∨ (producers.Producers
               (nodesResponse.Data (json_Unmarshal_nodesResponse body)) = []
             ∧ e = "found no NSQ daemons")
          ∨ (∃ p, p ∈ producers.Producers
                        (nodesResponse.Data (json_Unmarshal_nodesResponse body))
                  ∧ nsq_NewProducer (producer.Broadcast_address p +:+ ":"
                                     +:+ Itoa (producer.Tcp_port p)) = Some e)
      | Hang => False
      end
  end.
Proof.
  unfold NewService, http_get, perform, log_Fatal, mbind, M_bind, mret, M_ret.
  destruct (http_Get _) as [err|body]; [reflexivity|].
  set (n := json_Unmarshal_nodesResponse body).
  destruct (decide (nodesResponse.Status_code n ≠ 200)) as [Hne|Heq]; simpl.
  { left. now split. }
  assert (Hok : nodesResponse.Status_code n = 200).
  { destruct (decide (nodesResponse.Status_code n = 200)); tauto. }
  destruct (producers.Producers (nodesResponse.Data n)) as [|first rest] eqn:Hall; simpl.
  { right. left. now split. }
  set (all := first :: rest) in *.
  set (p := nth (rand_Intn (S (length rest))) all first).
  assert (Hp : p ∈ all).
  { apply list_elem_of_In. apply nth_In. apply rand_Intn_lt. simpl. lia. }
  destruct (nsq_NewProducer _) as [e|] eqn:Hprod; simpl.
  - right. right. exists p. now split.
  - split; [assumption|]. split; [|split; [reflexivity|]].
    + exists p. repeat split; assumption.
    + intros ct payload now. reflexivity.
Qed.

End BootstrapProperties.

(** With two nodes reported and the first picked, the service is bound to
    the first node's TCP and HTTP addresses. *)
Example NewService_demo :
  (@NewService demo_env demo_boot "honeybadger" "1" "localhost:4161" world0).2
  = Ret honeybadger.
Proof. vm_compute. reflexivity. Qed.

(** ** What a run of the loop keeps *)

Lemma received_grows_step (st st' : ActorState) (ev : Event) (c : nat) (t : Task) :
  step st ev = Some st' → tasks st !! c = Some t →
  ∃ t', tasks st' !! c = Some t' ∧ task_pair t' = task_pair t
        ∧ task_received t `prefix_of` task_received t'.
Proof.
  intros Hstep Hc.
  assert (Hupd : ∀ c0 t0 t1, tasks st !! c0 = Some t0 → task_pair t1 = task_pair t0 →
                   task_received t0 `prefix_of` task_received t1 →
                   ∃ t', <[c0 := t1]> (tasks st) !! c = Some t' ∧ task_pair t' = task_pair t
                         ∧ task_received t `prefix_of` task_received t').
  { intros c0 t0 t1 Hc0 Hp Hr. destruct (decide (c0 = c)) as [->|Hne].
    - exists t1. rewrite list_lookup_insert_eq by (eapply lookup_lt_Some; eauto).
      rewrite Hc in Hc0. inversion Hc0; subst t0. now repeat split.
    - exists t. rewrite list_lookup_insert_ne by assumption. now repeat split. }
  destruct ev as [p | c0 | msg | c0].
  - apply step_add_inv in Hstep as (_ & _ & ->). exists t. simpl.
    split; [now apply lookup_app_l_Some | now split].
  - apply step_remove_inv in Hstep as (_ & _ & t0 & Hc0 & _ & ->). simpl.
    now apply (Hupd c0 t0).
  - apply step_call_inv in Hstep as (_ & _ & ->). exists t. unfold call_case.
    destruct (handlers st !! MessageID msg); now repeat split.
  - apply step_handler_inv in Hstep as (_ & t0 & Hc0 & _ & Hh).
    apply handler_case_inv in Hh as [[e ->] | [-> | (msg & _ & ->)]]; simpl.
    + exists t. now repeat split.
    + now apply (Hupd c0 t0).
    + apply (Hupd c0 t0); [assumption | reflexivity |]. simpl.
      now apply prefix_app_r.
Qed.

(** The goroutine of a channel keeps its registration for the whole run,
    and what its handler has read is only ever extended at the end. *)
Theorem received_grows (evs : list Event) (st st' : ActorState) (c : nat) (t : Task) :
  exec st evs = Some st' →
  tasks st !! c = Some t →
  ∃ t', tasks st' !! c = Some t' ∧ task_pair t' = task_pair t
        ∧ task_received t `prefix_of` task_received t'.
Proof.
  revert st t. induction evs as [|ev evs IH]; intros st t; simpl.
  - intros [= <-] Hc. exists t. now repeat split.
  - destruct (step st ev) as [st1|] eqn:Hstep; [|discriminate].
    intros Hrun Hc.
    destruct (received_grows_step st st1 ev c t Hstep Hc) as (t1 & Hc1 & Hp1 & Hr1).
    destruct (IH st1 t1 Hrun Hc1) as (t2 & Hc2 & Hp2 & Hr2).
    exists t2. split; [assumption|]. split; [congruence|]. now transitivity (task_received t1).
Qed.

Lemma received_grows_witness :
  ∃ t', tasks {| handlers := {["7" := 0%nat]};
                 tasks := [mkTask (handlerIDPair.mk reads_forever "7")
                                  [response_with_id "7"] InHandler];
                 sending := None; exited := None |} !! 0%nat = Some t'
        ∧ task_pair t' = task_pair (mkTask (handlerIDPair.mk reads_forever "7") [] InHandler)
        ∧ task_received (mkTask (handlerIDPair.mk reads_forever "7") [] InHandler)
          `prefix_of` task_received t'.
Proof.
  apply (received_grows
           [CallHandler (response_with_id "7"); HandlerRuns 0]
           (add_case actor_init (handlerIDPair.mk reads_forever "7"))
           {| handlers := {["7" := 0%nat]};
              tasks := [mkTask (handlerIDPair.mk reads_forever "7")
                               [response_with_id "7"] InHandler];
              sending := None; exited := None |}
           0%nat (mkTask (handlerIDPair.mk reads_forever "7") [] InHandler)).
  - vm_compute. reflexivity.
  - reflexivity.
Defined.
